(** * A duplicate-file finder over a separate-chaining hash table

    Shallow embedding of [hash.c], [pair.c], [table.c] and [duplicates.c].

    Conventions of the embedding:
    - a C string is the [string] of its bytes before the terminating NUL, so
      [strlen] is [String.length] and [strcmp (a, b) == 0] is [String.eqb a b];
    - [uint64_t] and [size_t] values are [Z] in [0, 2^64), [int] values are
      [Z] in [-2^31, 2^31); every wrap-around is written out;
    - a bucket chain ([Pair] nodes linked through [next], hanging off the
      sentinel [buckets[i]]) is the [list Pair] of its nodes, head first;
    - [malloc], [calloc] and [strdup] are taken to succeed;
    - standard output and standard error are the strings written so far. *)

From Stdlib Require Import ZArith String Ascii List Lia.
From stdpp Require Import base list strings pretty.

Open Scope Z_scope.

(** ** Machine integers *)

Definition UINT64_MOD : Z := 2 ^ 64.
Definition to_uint64 (z : Z) : Z := z mod UINT64_MOD.
Definition to_size_t (z : Z) : Z := z mod UINT64_MOD.

(** Conversion to [int] (32 bits, two's complement). *)
Definition to_int (z : Z) : Z :=
  let m := z mod 2 ^ 32 in if m <? 2 ^ 31 then m else m - 2 ^ 32.

Definition int_range (z : Z) : Prop := - 2 ^ 31 <= z < 2 ^ 31.

(** ** The environment of the program

    What the code obtains from the C library, the operating system and
    libcrypto.  None of it is code of the repository, so it is a parameter:
    every statement below holds for any [System]. *)

Record System : Type := mkSystem {
  (** [BUFSIZ] of [stdio.h]. *)
  BUFSIZ : nat;
  (** [fopen (path, "r")]: [None] when the file cannot be opened, otherwise
      the bytes that successive [fread] calls deliver before returning 0. *)
  fopen : string -> option (list ascii);
  (** The MD5 interface of libcrypto. *)
  MD5_CTX : Type;
  MD5_Init : MD5_CTX;
  MD5_Update : MD5_CTX -> list ascii -> MD5_CTX;
  MD5_Final : MD5_CTX -> list ascii;
  (** [stat (path, &s)]: [None] when it fails, otherwise [S_ISDIR (s.st_mode)]. *)
  stat : string -> option bool;
  (** [opendir (root)] followed by the [readdir] sequence: the entry names in
      enumeration order, or the [strerror (errno)] text when it fails. *)
  opendir : string -> list string + string;
  (** [realpath (root, buf)]: [None] for [NULL]. *)
  realpath : string -> option string
}.

(** Outcome of a computation that recurses over the file system: the model
    recurses on [fuel], and some C behaviour is undefined. *)
Inductive result (A : Type) : Type :=
  | Done (a : A)
  | OutOfFuel
  | Undefined.

Arguments Done {A} a.
Arguments OutOfFuel {A}.
Arguments Undefined {A}.

(** ** hash.c *)

Module Hash.

Definition FNV_OFFSET_BASIS : Z := 0xcbf29ce484222325.
Definition FNV_PRIME : Z := 0x100000001b3.

(** The byte read into [char byte]: plain [char] is signed on the ABI the
    program is built for, and [hash ^ byte] converts it to [uint64_t]. *)
Definition char_value (byte : ascii) : Z :=
  let n := Z.of_N (N_of_ascii byte) in if n <? 128 then n else n - 256.

Definition hash_step (hash : Z) (byte : ascii) : Z :=
  let hash := Z.lxor hash (to_uint64 (char_value byte)) in
  to_uint64 (hash * FNV_PRIME).

(** The loop [for (i = 0; i < n; i++)] over the first [n] bytes of [data];
    the model stops where [data] ends (the C code would read out of bounds). *)
Fixpoint hash_loop (data : string) (n : nat) (hash : Z) : Z :=
  match n, data with
  | S n', String byte rest => hash_loop rest n' (hash_step hash byte)
  | _, _ => hash
  end.

Definition hash_from_data (data : string) (n : nat) : Z :=
  hash_loop data n FNV_OFFSET_BASIS.

Definition MD5_DIGEST_LENGTH : nat := 16.

(** The [fread]/[MD5_Update] loop: each round takes the next [BUFSIZ] bytes
    and stops at the first empty read.  A round that continues consumes at
    least one byte, so [S (length file)] rounds of [fuel] always suffice. *)
Fixpoint hash_read_loop (sys : System) (fuel : nat) (c : MD5_CTX sys)
    (file : list ascii) : MD5_CTX sys :=
  match fuel with
  | O => c
  | S fuel' =>
      let buffer := take (BUFSIZ sys) file in
      if (0 <? Z.of_nat (length buffer))
      then hash_read_loop sys fuel' (MD5_Update sys c buffer) (drop (BUFSIZ sys) file)
      else c
  end.

Definition hex_digit (n : N) : ascii :=
  nth (N.to_nat n) (list_ascii_of_string "0123456789abcdef") "0"%char.

(** [sprintf (&hexdigest[2*i], "%02x", out[i])] for one byte. *)
Definition hex_byte (byte : ascii) : string :=
  let n := N_of_ascii byte in
  String (hex_digit (n / 16)) (String (hex_digit (n mod 16)) EmptyString).

Fixpoint hex_loop (out : list ascii) : string :=
  match out with
  | [] => EmptyString
  | byte :: rest => hex_byte byte +:+ hex_loop rest
  end.

(** [hash_from_file (path, hexdigest)]: [None] for [false], otherwise the
    digest written to [hexdigest]. *)
Definition hash_from_file (sys : System) (path : string) : option string :=
  match fopen sys path with
  | None => None
  | Some file =>
      let c := hash_read_loop sys (S (length file)) (MD5_Init sys) file in
      let out := MD5_Final sys c in
      Some (hex_loop (take MD5_DIGEST_LENGTH out))
  end.

End Hash.

(** ** pair.c *)

Module Pair.

(** Modelled from the spec: the declarations of [pair.h] ([Type], [Value],
    [Pair]) are not among the sources.  [Type] is the tag of a value, [Value]
    the union of a signed 64-bit [number] and a [string], and a [Pair] holds
    its [key], [value], [type] and the [next] pair of its chain. *)
Inductive ValueType : Type := NUMBER | STRING.

Inductive Value : Type :=
  | VNumber (number : Z)
  | VString (str : string).

(** Member accesses [v.string] and [v.number].  Reading the member that was
    not written is not defined by C; the model yields the empty string and
    zero there, and the statements below assume values tagged with their
    own type ([well_tagged]) wherever the member read matters. *)
Definition value_string (v : Value) : string :=
  match v with VString s => s | VNumber _ => EmptyString end.

Definition value_number (v : Value) : Z :=
  match v with VNumber n => n | VString _ => 0 end.

Definition well_tagged (v : Value) (type : ValueType) : Prop :=
  match v, type with
  | VNumber _, NUMBER | VString _, STRING => True
  | _, _ => False
  end.

Record Pair : Type := mkPair {
  key : string;
  value : Value;
  type : ValueType
}.

Definition ValueType_eqb (a b : ValueType) : bool :=
  match a, b with
  | NUMBER, NUMBER | STRING, STRING => true
  | _, _ => false
  end.

(** The value a pair stores for [value] of type [type]: a fresh copy of the
    string for [STRING], the union as it is otherwise. *)
Definition stored_value (value : Value) (type : ValueType) : Value :=
  if ValueType_eqb type STRING then VString (value_string value) else value.

(** [pair_create (key, value, next, type)]: the chain whose head is the new
    pair and whose tail is [next]. *)
Definition pair_create (key : string) (value : Value) (next : list Pair)
    (type : ValueType) : list Pair :=
  mkPair key (stored_value value type) type :: next.

(** [pair_update]: the key is kept, value and type are overwritten. *)
Definition pair_update (p : Pair) (value : Value) (type : ValueType) : Pair :=
  mkPair (key p) (stored_value value type) type.

Definition TAB : string := String (ascii_of_nat 9) EmptyString.
Definition NEWLINE : string := String (ascii_of_nat 10) EmptyString.

(** The text one pair contributes: ["%s\t%s\n"] or ["%s\t%ld\n"]. *)
Definition pair_line (p : Pair) : string :=
  if ValueType_eqb (type p) STRING
  then key p +:+ TAB +:+ value_string (value p) +:+ NEWLINE
  else key p +:+ TAB +:+ pretty (value_number (value p)) +:+ NEWLINE.

Definition pair_format (p : Pair) (stream : string) : string :=
  stream +:+ pair_line p.

End Pair.

(** ** table.c *)

Module Table.
Import Hash Pair.

(** Modelled from the spec: the declaration of [Table] in [table.h] is not
    among the sources.  A table owns the array of [capacity] bucket heads
    and [size], the count of live entries. *)
Record Table : Type := mkTable {
  buckets : list (list Pair);
  capacity : Z;
  size : Z
}.

(** [hash_from_data (key, strlen (key)) % t->capacity].  The C operator is
    undefined for a zero capacity; [table_create] never produces one when
    [DEFAULT_CAPACITY] is positive. *)
Definition bucket_of (t : Table) (key : string) : nat :=
  Z.to_nat (hash_from_data key (String.length key) mod capacity t).

(** The chain hanging off [t->buckets[bucket]]. *)
Definition chain_at (t : Table) (bucket : nat) : list Pair :=
  buckets t !!! bucket.

Definition set_chain (t : Table) (bucket : nat) (chain : list Pair) : Table :=
  mkTable (<[bucket := chain]> (buckets t)) (capacity t) (size t).

(** The scan of [table_insert]: [Some] of the chain with the matching pair
    updated, [None] when the loop falls through. *)
Fixpoint table_insert_loop (curr : list Pair) (key : string) (value : Value)
    (type : ValueType) : option (list Pair) :=
  match curr with
  | [] => None
  | p :: next =>
      if String.eqb (Pair.key p) key
      then Some (pair_update p value type :: next)
      else cons p <$> table_insert_loop next key value type
  end.

Definition table_insert (t : Table) (key : string) (value : Value)
    (type : ValueType) : Table :=
  let bucket := bucket_of t key in
  match table_insert_loop (chain_at t bucket) key value type with
  | Some chain => set_chain t bucket chain
  | None =>
      let t' := set_chain t bucket (pair_create key value (chain_at t bucket) type) in
      mkTable (buckets t') (capacity t') (to_size_t (size t' + 1))
  end.

Fixpoint table_search_loop (curr : list Pair) (key : string) : option Value :=
  match curr with
  | [] => None
  | p :: next =>
      if String.eqb (Pair.key p) key then Some (value p)
      else table_search_loop next key
  end.

(** [table_search]: the value found (the C code returns a pointer to it) or
    [None] for [NULL]. *)
Definition table_search (t : Table) (key : string) : option Value :=
  table_search_loop (chain_at t (bucket_of t key)) key.

(** The scan of [table_remove] with its trailing [prev]: [Some] of the chain
    with the first matching pair unlinked, [None] when nothing matches. *)
Fixpoint table_remove_loop (curr : list Pair) (key : string) : option (list Pair) :=
  match curr with
  | [] => None
  | p :: next =>
      if String.eqb (Pair.key p) key then Some next
      else cons p <$> table_remove_loop next key
  end.

Definition table_remove (t : Table) (key : string) : Table * bool :=
  let bucket := bucket_of t key in
  match table_remove_loop (chain_at t bucket) key with
  | Some chain =>
      let t' := set_chain t bucket chain in
      (mkTable (buckets t') (capacity t') (to_size_t (size t' - 1)), true)
  | None => (t, false)
  end.

(** The inner loop of [table_format] over one chain. *)
Fixpoint table_format_chain (curr : list Pair) (stream : string) : string :=
  match curr with
  | [] => stream
  | p :: next => table_format_chain next (pair_format p stream)
  end.

(** The outer loop [for (i = 0; i < t->capacity; i++)], written as the
    [n] iterations that start at index [i]. *)
Fixpoint table_format_loop (t : Table) (i : nat) (n : nat) (stream : string) : string :=
  match n with
  | O => stream
  | S n' => table_format_loop t (S i) n' (table_format_chain (chain_at t i) stream)
  end.

(** [table_format (t, stream)]; [None] is the [NULL] table. *)
Definition table_format (t : option Table) (stream : string) : string :=
  match t with
  | None => stream
  | Some t => table_format_loop t 0 (Z.to_nat (capacity t)) stream
  end.

Section Create.

(** [DEFAULT_CAPACITY] is a macro of [macros.h] or [table.h], which are not
    among the sources; it is a parameter of the development. *)
Variable DEFAULT_CAPACITY : Z.

Definition table_create (capacity : Z) : Table :=
  let cap := if capacity =? 0 then DEFAULT_CAPACITY else capacity in
  mkTable (replicate (Z.to_nat cap) []) cap 0.

End Create.

End Table.

(** ** duplicates.c *)

Module Duplicates.
Import Hash Pair Table.

Record Options : Type := mkOptions {
  count : bool;
  quiet : bool
}.

(** What the scan reads and writes: the table of checksums and the two
    output streams. *)
Record State : Type := mkState {
  checksums : Table;
  out : string;
  err : string
}.

(** Modelled from the spec: [streq] is a macro of [macros.h], which is not
    among the sources; it is string equality. *)
Definition streq (a b : string) : bool := String.eqb a b.

Definition is_directory (sys : System) (path : string) : bool :=
  match stat sys path with
  | None => false
  | Some isdir => isdir
  end.

(** The line ["%s is a duplicate of %s
"]. *)
Definition duplicate_line (path original : string) : string :=
  path +:+ " is a duplicate of " +:+ original +:+ NEWLINE.

(** [check_file (path, checksums, options)]: the returned count and the
    state it leaves. *)
Definition check_file (sys : System) (path : string) (st : State)
    (options : Options) : Z * State :=
  match hash_from_file sys path with
  | Some hex =>
      match table_search (checksums st) hex with
      | Some v =>
          if negb (count options) && negb (quiet options)
          then (1, mkState (checksums st)
                     (out st +:+ duplicate_line path (value_string v)) (err st))
          else if quiet options || count options then (1, st)
          else (0, st)
      | None =>
          (0, mkState (table_insert (checksums st) hex (VString path) STRING)
                (out st) (err st))
      end
  | None => (0, st)
  end.

(** [count += n] for [int count] and [size_t n]: the sum is taken in
    [size_t] and converted back to [int]. *)
Definition count_add (count n : Z) : Z := to_int (to_size_t (to_size_t count + n)).

(** [sprintf (currPath, "%s/%s", dir, d_name)]; paths are taken to fit in
    [PATH_MAX] bytes. *)
Definition join_path (dir d_name : string) : string := dir +:+ "/" +:+ d_name.

(** The contents of [currPath] after the two [sprintf] calls: [root] joined
    with the entry name, overwritten with [path] (the result of
    [realpath (root)], undefined to print when it is [NULL]) joined with the
    entry name when the bare entry name is a directory. *)
Definition entry_path (sys : System) (root : string) (path : option string)
    (d_name : string) : result string :=
  if is_directory sys d_name
  then match path with
       | Some p => Done (join_path p d_name)
       | None => Undefined
       end
  else Done (join_path root d_name).

(** One round of the [readdir] loop of [check_directory].  [recurse] is the
    recursive call, [path] the result of [realpath (root)]. *)
Definition check_entry (sys : System)
    (recurse : string -> State -> result (Z * State))
    (root : string) (path : option string) (options : Options)
    (d_name : string) (count : Z) (st : State) : result (Z * State) :=
  if streq d_name "." || streq d_name ".." then Done (count, st)
  else
    match entry_path sys root path d_name with
    | Done currPath =>
        if is_directory sys currPath
        then match recurse currPath st with
             | Done (n, st') => Done (count_add count n, st')
             | OutOfFuel => OutOfFuel
             | Undefined => Undefined
             end
        else let '(n, st') := check_file sys currPath st options in
             Done (count_add count n, st')
    | OutOfFuel => OutOfFuel
    | Undefined => Undefined
    end.

(** The [readdir] loop over the entries still to come. *)
Fixpoint check_entries (sys : System)
    (recurse : string -> State -> result (Z * State))
    (root : string) (path : option string) (options : Options)
    (entries : list string) (count : Z) (st : State) : result (Z * State) :=
  match entries with
  | [] => Done (count, st)
  | d_name :: rest =>
      match check_entry sys recurse root path options d_name count st with
      | Done (count', st') => check_entries sys recurse root path options rest count' st'
      | OutOfFuel => OutOfFuel
      | Undefined => Undefined
      end
  end.

(** [check_directory (root, checksums, options)], with [fuel] bounding the
    depth of the recursion. *)
Fixpoint check_directory (sys : System) (fuel : nat) (root : string)
    (st : State) (options : Options) : result (Z * State) :=
  match fuel with
  | O => OutOfFuel
  | S fuel' =>
      match opendir sys root with
      | inr msg =>
          Done (0, mkState (checksums st) (out st)
                     (err st +:+ "Unable to open directory on " +:+ root +:+ ": "
                        +:+ msg +:+ NEWLINE))
      | inl entries =>
          match check_entries sys
                  (fun r s => check_directory sys fuel' r s options)
                  root (realpath sys root) options entries 0 st with
          | Done (count, st') => Done (to_size_t count, st')
          | OutOfFuel => OutOfFuel
          | Undefined => Undefined
          end
      end
  end.

(** What the process leaves behind: its exit status and the two streams. *)
Record Exit : Type := mkExit {
  status : Z;
  exit_out : string;
  exit_err : string
}.

(** [usage (status)]: the three lines on standard error, then [exit]. *)
Definition usage (PROGRAM_NAME : string) (status : Z) (out err : string) : Exit :=
  mkExit status out
    (err +:+ "Usage: " +:+ PROGRAM_NAME +:+ " paths..." +:+ NEWLINE
         +:+ "    -c     Only display total number of duplicates" +:+ NEWLINE
         +:+ "    -q     Do not write anything (exit with 0 if duplicate found)"
         +:+ NEWLINE).

(** The test of the [while] loop of [main] on [argv[argind]]:
    [strlen (arg) > 1 && arg[0] == '-']. *)
Definition is_flag (arg : string) : bool :=
  (1 <? Z.of_nat (String.length arg)) &&
  match String.get 0 arg with
  | Some c => Ascii.eqb c "-"
  | None => false
  end.

(** The [while] loop of [main] over the arguments from [argv[argind]] on:
    either the exit through [usage (0)], or the final [argind], the flags
    and the arguments left, which become [path]. *)
Fixpoint parse_flags (PROGRAM_NAME : string) (args : list string) (argind : Z)
    (flags : Options) : Exit + (Z * Options * list string) :=
  match args with
  | [] => inr (argind, flags, [])
  | arg :: rest =>
      if is_flag arg
      then match String.get 1 arg with
           | Some "h"%char => inl (usage PROGRAM_NAME 0 "" "")
           | Some "c"%char =>
               parse_flags PROGRAM_NAME rest (argind + 1)
                 (mkOptions true (quiet flags))
           | Some "q"%char =>
               parse_flags PROGRAM_NAME rest (argind + 1)
                 (mkOptions (count flags) true)
           | _ => parse_flags PROGRAM_NAME rest (argind + 1) flags
           end
      else inr (argind, flags, args)
  end.

(** The loop of [main] over [path]. *)
Fixpoint main_loop (sys : System) (fuel : nat) (path : list string) (count : Z)
    (st : State) (flags : Options) : result (Z * State) :=
  match path with
  | [] => Done (count, st)
  | p :: rest =>
      if is_directory sys p
      then match check_directory sys fuel p st flags with
           | Done (n, st') => main_loop sys fuel rest (count_add count n) st' flags
           | OutOfFuel => OutOfFuel
           | Undefined => Undefined
           end
      else let '(n, st') := check_file sys p st flags in
           main_loop sys fuel rest (count_add count n) st' flags
  end.

Section Main.

(** [DEFAULT_CAPACITY], the macro [table_create] falls back on. *)
Variable DEFAULT_CAPACITY : Z.

(** The part of [main] from [table_create (argind)] to the end of the loop
    over [path]: the count and the state (the table [files] and the two
    streams) that the final lines of [main] start from. *)
Definition main_scan (sys : System) (fuel : nat) (argind : Z) (flags : Options)
    (path : list string) : result (Z * State) :=
  let files := table_create DEFAULT_CAPACITY argind in
  main_loop sys fuel path 0 (mkState files "" "") flags.

(** [main (argc, argv)] with [argv] the list of its [argc] strings; [fuel]
    bounds the depth of every directory scan.  An empty [argv] makes the
    array [path] of negative length, which C leaves undefined; an array
    [path] of length zero is taken as GNU C has it. *)
Definition main (sys : System) (fuel : nat) (argv : list string) : result Exit :=
  match argv with
  | [] => Undefined
  | PROGRAM_NAME :: args =>
      if Z.of_nat (length argv) =? 1 then Done (mkExit 0 "" "")
      else
        match parse_flags PROGRAM_NAME args 1 (mkOptions false false) with
        | inl e => Done e
        | inr (argind, flags, path) =>
            match main_scan sys fuel argind flags path with
            | Done (count, st) =>
                let out' :=
                  if Duplicates.count flags
                  then out st +:+ pretty count +:+ NEWLINE
                  else out st in
                let return_val :=
                  if (count =? 0) && quiet flags then 1 else 0 in
                Done (mkExit return_val out' (err st))
            | OutOfFuel => OutOfFuel
            | Undefined => Undefined
            end
        end
  end.

End Main.

End Duplicates.

(** * Notions used to state the properties of the table *)

Module TableSpec.
Import Hash Pair Table.

(** A table whose bucket array has [capacity] cells, [capacity] positive:
    every bucket index the operations compute is then in range. *)
Definition table_wf (t : Table) : Prop :=
  0 < capacity t /\ length (buckets t) = Z.to_nat (capacity t).

(** The entries of a table, bucket by bucket and chain by chain. *)
Definition entries (t : Table) : list Pair := concat (buckets t).

Definition table_keys (t : Table) : list string := Pair.key <$> entries t.

(** Every entry hangs off the bucket its key hashes to. *)
Definition placed (t : Table) : Prop :=
  forall (i : nat) (chain : list Pair) (p : Pair),
    buckets t !! i = Some chain -> p ∈ chain -> bucket_of t (Pair.key p) = i.

(** No chain holds a key twice. *)
Definition chains_nodup (t : Table) : Prop :=
  forall (i : nat) (chain : list Pair),
    buckets t !! i = Some chain -> NoDup (Pair.key <$> chain).

(** [size] counts the entries, as a [size_t]. *)
Definition size_counts (t : Table) : Prop :=
  size t = to_size_t (Z.of_nat (length (entries t))).

Definition table_inv (t : Table) : Prop :=
  table_wf t /\ placed t /\ chains_nodup t /\ size_counts t.

Inductive Op : Type :=
  | OpInsert (key : string) (value : Value) (type : ValueType)
  | OpSearch (key : string)
  | OpRemove (key : string).

(** What a caller sees of one operation: nothing of an insertion, the value
    of a search, the flag of a removal. *)
Inductive Observation : Type :=
  | ObsInsert
  | ObsSearch (found : option Value)
  | ObsRemove (removed : bool).

Definition table_apply (t : Table) (op : Op) : Table * Observation :=
  match op with
  | OpInsert key value type => (table_insert t key value type, ObsInsert)
  | OpSearch key => (t, ObsSearch (table_search t key))
  | OpRemove key => let '(t', b) := table_remove t key in (t', ObsRemove b)
  end.

Definition table_run (t : Table) (ops : list Op) : Table :=
  fold_left (fun t op => fst (table_apply t op)) ops t.

(** The observations of a run, each with the size the table has after it. *)
Fixpoint table_trace (t : Table) (ops : list Op) : list (Observation * Z) :=
  match ops with
  | [] => []
  | op :: rest =>
      let '(t', o) := table_apply t op in (o, size t') :: table_trace t' rest
  end.

(** The lines of a list of entries, one after the other. *)
Fixpoint lines (ps : list Pair) : string :=
  match ps with
  | [] => EmptyString
  | p :: rest => pair_line p +:+ lines rest
  end.

(** The chain of the bucket of [key] starts with an entry for [key], which
    [table_format] therefore writes first for that bucket. *)
Definition first_in_bucket (t : Table) (key : string) : Prop :=
  exists (p : Pair) (rest : list Pair),
    chain_at t (bucket_of t key) = p :: rest /\ Pair.key p = key.

(** ** A small table *)

(** A table of four buckets holding the keys ["a"] and ["b"]. *)
Definition sample_table : Table :=
  table_run (table_create 16 4)
    [OpInsert "a" (VString "first") STRING; OpInsert "b" (VNumber 2) NUMBER].

(** A table of one bucket, in which the keys ["a"] and ["b"] share the
    chain: ["b"], inserted last, is its head and ["a"] comes second. *)
Definition collide_table : Table :=
  table_run (table_create 16 1)
    [OpInsert "a" (VString "first") STRING; OpInsert "b" (VNumber 2) NUMBER].

End TableSpec.

(** * Notions used to state the properties of the scanner *)

Module ScanSpec.
Import Hash Pair Table Duplicates.

(** The three-way outcome the spec ascribes to the classification of a file.
    The code has no such type, only the count returned by [check_file];
    [classify_file] reads the outcome off the same two tests
    ([hash_from_file], [table_search]). *)
Inductive Classification : Type :=
  | Duplicate (original : string)
  | Original
  | Unreadable.

Definition classify_file (sys : System) (path : string) (checksums : Table)
    : Classification :=
  match hash_from_file sys path with
  | None => Unreadable
  | Some hex =>
      match table_search checksums hex with
      | Some v => Duplicate (value_string v)
      | None => Original
      end
  end.

(** The count the spec attaches to a classification. *)
Definition duplicate_count (c : Classification) : Z :=
  match c with
  | Duplicate _ => 1
  | Original | Unreadable => 0
  end.

(** The spec's [scan_directory], in its own words: every entry other than
    the two pseudo-entries is visited under the path made of the parent path
    and the entry name, whatever the bare name denotes. *)
Definition scan_entry (sys : System)
    (recurse : string -> State -> result (Z * State))
    (root : string) (options : Options)
    (d_name : string) (count : Z) (st : State) : result (Z * State) :=
  if streq d_name "." || streq d_name ".." then Done (count, st)
  else
    let currPath := join_path root d_name in
    if is_directory sys currPath
    then match recurse currPath st with
         | Done (n, st') => Done (count_add count n, st')
         | OutOfFuel => OutOfFuel
         | Undefined => Undefined
         end
    else let '(n, st') := check_file sys currPath st options in
         Done (count_add count n, st').

Fixpoint scan_entries (sys : System)
    (recurse : string -> State -> result (Z * State))
    (root : string) (options : Options)
    (entries : list string) (count : Z) (st : State) : result (Z * State) :=
  match entries with
  | [] => Done (count, st)
  | d_name :: rest =>
      match scan_entry sys recurse root options d_name count st with
      | Done (count', st') => scan_entries sys recurse root options rest count' st'
      | OutOfFuel => OutOfFuel
      | Undefined => Undefined
      end
  end.

Fixpoint scan_directory (sys : System) (fuel : nat) (root : string)
    (st : State) (options : Options) : result (Z * State) :=
  match fuel with
  | O => OutOfFuel
  | S fuel' =>
      match opendir sys root with
      | inr msg =>
          Done (0, mkState (checksums st) (out st)
                     (err st +:+ "Unable to open directory on " +:+ root +:+ ": "
                        +:+ msg +:+ NEWLINE))
      | inl entries =>
          match scan_entries sys
                  (fun r s => scan_directory sys fuel' r s options)
                  root options entries 0 st with
          | Done (count, st') => Done (to_size_t count, st')
          | OutOfFuel => OutOfFuel
          | Undefined => Undefined
          end
      end
  end.

(** ** A small file system

    The working directory [/w] holds an empty directory [d] and a directory
    [sub]; [sub] holds the regular files [d] and [e], both with the bytes
    of "hello", and a file [locked] that cannot be opened.  Paths are
    resolved as the operating system would, relative ones against [/w]. *)

Fixpoint assoc {A : Type} (k : string) (l : list (string * A)) : option A :=
  match l with
  | [] => None
  | (k', a) :: rest => if String.eqb k' k then Some a else assoc k rest
  end.

Definition sample_absolute : list (string * string) :=
  [ (".", "/w"); ("..", "/"); ("d", "/w/d"); ("sub", "/w/sub");
    ("sub/d", "/w/sub/d"); ("sub/e", "/w/sub/e"); ("sub/locked", "/w/sub/locked");
    ("/", "/"); ("/w", "/w"); ("/w/d", "/w/d"); ("/w/sub", "/w/sub");
    ("/w/sub/d", "/w/sub/d"); ("/w/sub/e", "/w/sub/e");
    ("/w/sub/locked", "/w/sub/locked") ].

Definition sample_directories : list (string * list string) :=
  [ ("/", ["."; ".."; "w"]);
    ("/w", ["."; ".."; "d"; "sub"]);
    ("/w/d", ["."; ".."]);
    ("/w/sub", ["."; ".."; "d"; "locked"; "e"]) ].

Definition sample_files : list (string * option (list ascii)) :=
  [ ("/w/sub/d", Some (list_ascii_of_string "hello"));
    ("/w/sub/e", Some (list_ascii_of_string "hello"));
    ("/w/sub/locked", None) ].

Definition sample_stat (path : string) : option bool :=
  match assoc path sample_absolute with
  | None => None
  | Some abs =>
      match assoc abs sample_directories, assoc abs sample_files with
      | Some _, _ => Some true
      | None, Some _ => Some false
      | None, None => None
      end
  end.

Definition sample_opendir (path : string) : list string + string :=
  match assoc path sample_absolute with
  | None => inr "No such file or directory"
  | Some abs =>
      match assoc abs sample_directories with
      | Some names => inl names
      | None => inr "Not a directory"
      end
  end.

Definition sample_fopen (path : string) : option (list ascii) :=
  match assoc path sample_absolute with
  | None => None
  | Some abs =>
      match assoc abs sample_files with
      | Some content => content
      | None => None
      end
  end.

(** A stand-in for MD5: the context collects the bytes and the digest is
    their first sixteen, padded with zero bytes.  The two readable files of
    the example have the same bytes, so any digest gives them one checksum. *)
Definition sample_digest (bytes : list ascii) : list ascii :=
  take 16 (bytes ++ replicate 16 zero).

Definition sample_system : System :=
  mkSystem (Z.to_nat 8192) sample_fopen
    (list ascii) [] (fun c chunk => c ++ chunk) sample_digest
    sample_stat sample_opendir (fun path => assoc path sample_absolute).

Definition sample_state : State := mkState (table_create 16 8) "" "".

Definition sample_options : Options := mkOptions false false.

(** The sample file system with the directory [/w/d] closed to the user:
    [stat] still shows a directory, [opendir] fails. *)
Definition locked_opendir (path : string) : list string + string :=
  if String.eqb path "d" || String.eqb path "/w/d"
  then inr "Permission denied"
  else sample_opendir path.

Definition locked_system : System :=
  mkSystem (Z.to_nat 8192) sample_fopen
    (list ascii) [] (fun c chunk => c ++ chunk) sample_digest
    sample_stat locked_opendir (fun path => assoc path sample_absolute).

(** ** Command lines *)

(** The second character of an argument is [letter]. *)
Definition flag_letter (arg : string) (letter : ascii) : bool :=
  match String.get 1 arg with
  | Some c => Ascii.eqb c letter
  | None => false
  end.

End ScanSpec.

(** * Notions used to state the properties of the checksums *)

Module HashSpec.
Import Hash.



Definition is_hex_char (c : ascii) : bool :=
  existsb (Ascii.eqb c) (list_ascii_of_string "0123456789abcdef").

Fixpoint string_forallb (P : ascii -> bool) (s : string) : bool :=
  match s with
  | EmptyString => true
  | String c rest => P c && string_forallb P rest
  end.

(** Reading a hexadecimal rendering back, two characters per byte. *)
Definition hex_value (c : ascii) : N :=
  let n := N_of_ascii c in
  if (n <? 58)%N then n - 48 else n - 87.

Fixpoint unhex (s : string) : list ascii :=
  match s with
  | String hi (String lo rest) =>
      ascii_of_N (16 * hex_value hi + hex_value lo) :: unhex rest
  | _ => []
  end.

End HashSpec.

(** * Properties of the hash table *)

Module TableTheory.
Import Hash Pair Table TableSpec.

(** ** Strings *)

Lemma append_cons (x : ascii) (a b : string) :
  String x a +:+ b = String x (a +:+ b).
Proof. reflexivity. Qed.

Lemma append_assoc (a b c : string) : (a +:+ b) +:+ c = a +:+ (b +:+ c).
Proof.
  induction a as [|x a IH]; [reflexivity |].
  now rewrite !append_cons, IH.
Qed.

Lemma append_nil_r (a : string) : a +:+ EmptyString = a.
Proof.
  induction a as [|x a IH]; [reflexivity |].
  now rewrite append_cons, IH.
Qed.

Lemma eqb_key_true (a b : string) : String.eqb a b = true <-> a = b.
Proof. apply String.eqb_eq. Qed.

Lemma eqb_key_false (a b : string) : String.eqb a b = false <-> a <> b.
Proof. apply String.eqb_neq. Qed.

(** ** The bucket hash on known inputs *)

Example hash_from_data_empty : hash_from_data "" 0 = 0xcbf29ce484222325.
Proof. reflexivity. Qed.

Example hash_from_data_a : hash_from_data "a" 1 = 0xaf63dc4c8601ec8c.
Proof. reflexivity. Qed.

(** ** Stored values *)

Lemma stored_value_tagged (v : Value) (ty : ValueType) :
  well_tagged v ty -> stored_value v ty = v.
Proof. destruct v, ty; simpl; intros H; try reflexivity; contradiction. Qed.

(** ** The three chain scans *)

Lemma search_loop_None (chain : list Pair) (k : string) :
  table_search_loop chain k = None <-> k ∉ (Pair.key <$> chain).
Proof.
  induction chain as [|p chain IH]; simpl.
  - split; [intros _; apply not_elem_of_nil | reflexivity].
  - destruct (String.eqb (Pair.key p) k) eqn:E.
    + apply eqb_key_true in E. split; [discriminate |].
      intros H. exfalso. apply H. rewrite E. apply list_elem_of_here.
    + apply eqb_key_false in E. rewrite IH, not_elem_of_cons. intuition congruence.
Qed.

Lemma insert_loop_None (chain : list Pair) (k : string) (v : Value) (ty : ValueType) :
  table_insert_loop chain k v ty = None <-> k ∉ (Pair.key <$> chain).
Proof.
  induction chain as [|p chain IH]; simpl.
  - split; [intros _; apply not_elem_of_nil | reflexivity].
  - destruct (String.eqb (Pair.key p) k) eqn:E.
    + apply eqb_key_true in E. split; [discriminate |].
      intros H. exfalso. apply H. rewrite E. apply list_elem_of_here.
    + apply eqb_key_false in E. rewrite not_elem_of_cons, <- IH.
      destruct (table_insert_loop chain k v ty); simpl; split;
        try discriminate; try (intuition congruence).
Qed.

Lemma remove_loop_None (chain : list Pair) (k : string) :
  table_remove_loop chain k = None <-> k ∉ (Pair.key <$> chain).
Proof.
  induction chain as [|p chain IH]; simpl.
  - split; [intros _; apply not_elem_of_nil | reflexivity].
  - destruct (String.eqb (Pair.key p) k) eqn:E.
    + apply eqb_key_true in E. split; [discriminate |].
      intros H. exfalso. apply H. rewrite E. apply list_elem_of_here.
    + apply eqb_key_false in E. rewrite not_elem_of_cons, <- IH.
      destruct (table_remove_loop chain k); simpl; split;
        try discriminate; try (intuition congruence).
Qed.

(** A successful scan of [table_insert] overwrites one cell of the chain,
    the first one that holds the key. *)
Lemma insert_loop_Some (chain chain' : list Pair) (k : string) (v : Value)
    (ty : ValueType) :
  table_insert_loop chain k v ty = Some chain' ->
  exists (j : nat) (p : Pair),
    chain !! j = Some p /\ Pair.key p = k /\
    (k ∉ (Pair.key <$> take j chain)) /\
    chain' = <[j := pair_update p v ty]> chain.
Proof.
  revert chain'. induction chain as [|p chain IH]; simpl; intros chain' H.
  - discriminate.
  - destruct (String.eqb (Pair.key p) k) eqn:E.
    + apply eqb_key_true in E. inversion H; subst chain'.
      exists 0%nat, p. simpl. repeat split; auto. apply not_elem_of_nil.
    + apply eqb_key_false in E.
      destruct (table_insert_loop chain k v ty) as [c|] eqn:L; simpl in H;
        [|discriminate].
      inversion H; subst chain'.
      destruct (IH c eq_refl) as (j & q & Hj & Hq & Hpre & Hc).
      exists (S j), q. simpl. repeat split; auto.
      * rewrite not_elem_of_cons. split; auto.
      * now rewrite Hc.
Qed.

Lemma insert_loop_keys (chain chain' : list Pair) (k : string) (v : Value)
    (ty : ValueType) :
  table_insert_loop chain k v ty = Some chain' ->
  Pair.key <$> chain' = Pair.key <$> chain.
Proof.
  revert chain'. induction chain as [|p chain IH]; simpl; intros chain' H.
  - discriminate.
  - destruct (String.eqb (Pair.key p) k).
    + inversion H; reflexivity.
    + destruct (table_insert_loop chain k v ty) as [c|]; simpl in H;
        [|discriminate].
      inversion H. rewrite !fmap_cons. f_equal. now apply IH.
Qed.

Lemma insert_loop_search (chain chain' : list Pair) (k : string) (v : Value)
    (ty : ValueType) :
  table_insert_loop chain k v ty = Some chain' ->
  table_search_loop chain' k = Some (stored_value v ty).
Proof.
  revert chain'. induction chain as [|p chain IH]; simpl; intros chain' H.
  - discriminate.
  - destruct (String.eqb (Pair.key p) k) eqn:E.
    + inversion H; simpl. now rewrite E.
    + destruct (table_insert_loop chain k v ty) as [c|]; simpl in H;
        [|discriminate].
      inversion H; simpl. rewrite E. now apply IH.
Qed.

Lemma insert_loop_search_ne (chain chain' : list Pair) (k k' : string)
    (v : Value) (ty : ValueType) :
  k' <> k ->
  table_insert_loop chain k v ty = Some chain' ->
  table_search_loop chain' k' = table_search_loop chain k'.
Proof.
  intros Hne. revert chain'.
  induction chain as [|p chain IH]; simpl; intros chain' H.
  - discriminate.
  - destruct (String.eqb (Pair.key p) k) eqn:E.
    + apply eqb_key_true in E. inversion H; simpl.
      assert (String.eqb (Pair.key p) k' = false) as ->
        by (apply eqb_key_false; congruence).
      reflexivity.
    + destruct (table_insert_loop chain k v ty) as [c|]; simpl in H;
        [|discriminate].
      inversion H; simpl. now rewrite (IH c eq_refl).
Qed.

(** A successful scan of [table_remove] unlinks one cell of the chain, the
    first one that holds the key. *)
Lemma remove_loop_Some (chain chain' : list Pair) (k : string) :
  table_remove_loop chain k = Some chain' ->
  exists (j : nat) (p : Pair),
    chain !! j = Some p /\ Pair.key p = k /\
    chain' = take j chain ++ drop (S j) chain.
Proof.
  revert chain'. induction chain as [|p chain IH]; simpl; intros chain' H.
  - discriminate.
  - destruct (String.eqb (Pair.key p) k) eqn:E.
    + apply eqb_key_true in E. inversion H; subst chain'.
      exists 0%nat, p. simpl. rewrite drop_0. auto.
    + destruct (table_remove_loop chain k) as [c|] eqn:L; simpl in H;
        [|discriminate].
      inversion H; subst chain'.
      destruct (IH c eq_refl) as (j & q & Hj & Hq & Hc).
      exists (S j), q. simpl. repeat split; auto. now rewrite Hc.
Qed.

(** ** Buckets *)

Lemma bucket_of_lt (t : Table) (k : string) :
  table_wf t -> (bucket_of t k < length (buckets t))%nat.
Proof.
  intros [Hc Hl]. unfold bucket_of. rewrite Hl.
  pose proof (Z.mod_pos_bound (hash_from_data k (String.length k)) _ Hc).
  apply Z2Nat.inj_lt; lia.
Qed.

Lemma bucket_of_capacity (t t' : Table) (k : string) :
  capacity t' = capacity t -> bucket_of t' k = bucket_of t k.
Proof. unfold bucket_of. now intros ->. Qed.

Lemma chain_at_lookup (t : Table) (b : nat) (chain : list Pair) :
  buckets t !! b = Some chain -> chain_at t b = chain.
Proof. apply list_lookup_total_correct. Qed.

Lemma lookup_chain_at (t : Table) (b : nat) :
  (b < length (buckets t))%nat -> buckets t !! b = Some (chain_at t b).
Proof. apply list_lookup_lookup_total_lt. Qed.

Lemma chain_at_entries (t : Table) (b : nat) (p : Pair) :
  p ∈ chain_at t b -> p ∈ entries t.
Proof.
  unfold chain_at, entries. rewrite list_lookup_total_alt.
  destruct (buckets t !! b) as [chain|] eqn:E; simpl.
  - intros Hp. apply list_elem_of_In, in_concat. exists chain.
    split; apply list_elem_of_In; [eapply list_elem_of_lookup_2; eauto | auto].
  - intros Hp. now apply not_elem_of_nil in Hp.
Qed.

Lemma entries_chain_at (t : Table) (p : Pair) :
  p ∈ entries t -> exists b : nat, (b < length (buckets t))%nat /\ p ∈ chain_at t b.
Proof.
  unfold entries. intros Hp. apply list_elem_of_In, in_concat in Hp.
  destruct Hp as (chain & Hc & Hp).
  apply list_elem_of_In, list_elem_of_lookup_1 in Hc. destruct Hc as [b Hb].
  exists b. split; [eapply lookup_lt_Some; eauto |].
  rewrite (chain_at_lookup _ _ _ Hb). now apply list_elem_of_In.
Qed.

Lemma chain_at_set_chain_eq (t : Table) (b : nat) (c : list Pair) :
  (b < length (buckets t))%nat -> chain_at (set_chain t b c) b = c.
Proof. intros H. unfold chain_at, set_chain; simpl. now apply list_lookup_total_insert_eq. Qed.

Lemma chain_at_set_chain_ne (t : Table) (b b' : nat) (c : list Pair) :
  b <> b' -> chain_at (set_chain t b c) b' = chain_at t b'.
Proof. intros H. unfold chain_at, set_chain; simpl. now apply list_lookup_total_insert_ne. Qed.

(** ** What [table_insert] and [table_remove] leave alone *)

Lemma capacity_insert (t : Table) (k : string) (v : Value) (ty : ValueType) :
  capacity (table_insert t k v ty) = capacity t.
Proof. unfold table_insert. now destruct (table_insert_loop _ _ _ _). Qed.

Lemma capacity_remove (t : Table) (k : string) :
  capacity (fst (table_remove t k)) = capacity t.
Proof. unfold table_remove. now destruct (table_remove_loop _ _). Qed.

Lemma length_buckets_insert (t : Table) (k : string) (v : Value) (ty : ValueType) :
  length (buckets (table_insert t k v ty)) = length (buckets t).
Proof.
  unfold table_insert. destruct (table_insert_loop _ _ _ _); simpl;
    apply length_insert.
Qed.

Lemma length_buckets_remove (t : Table) (k : string) :
  length (buckets (fst (table_remove t k))) = length (buckets t).
Proof.
  unfold table_remove. destruct (table_remove_loop _ _); simpl;
    [apply length_insert | reflexivity].
Qed.

Lemma table_wf_insert (t : Table) (k : string) (v : Value) (ty : ValueType) :
  table_wf t -> table_wf (table_insert t k v ty).
Proof.
  intros [Hc Hl]. split; rewrite ?capacity_insert, ?length_buckets_insert; auto.
Qed.

Lemma table_wf_remove (t : Table) (k : string) :
  table_wf t -> table_wf (fst (table_remove t k)).
Proof.
  intros [Hc Hl]. split; rewrite ?capacity_remove, ?length_buckets_remove; auto.
Qed.

Lemma chain_at_insert_eq (t : Table) (k : string) (v : Value) (ty : ValueType) :
  table_wf t ->
  chain_at (table_insert t k v ty) (bucket_of t k) =
  match table_insert_loop (chain_at t (bucket_of t k)) k v ty with
  | Some chain => chain
  | None => pair_create k v (chain_at t (bucket_of t k)) ty
  end.
Proof.
  intros Hwf. pose proof (bucket_of_lt t k Hwf) as Hlt.
  unfold table_insert. destruct (table_insert_loop _ _ _ _).
  - now apply chain_at_set_chain_eq.
  - apply (chain_at_set_chain_eq t); assumption.
Qed.

Lemma chain_at_insert_ne (t : Table) (k : string) (v : Value) (ty : ValueType)
    (b : nat) :
  b <> bucket_of t k -> chain_at (table_insert t k v ty) b = chain_at t b.
Proof.
  intros Hne. unfold table_insert. destruct (table_insert_loop _ _ _ _).
  - apply chain_at_set_chain_ne; auto.
  - apply (chain_at_set_chain_ne t); auto.
Qed.

Lemma chain_at_remove_ne (t : Table) (k : string) (b : nat) :
  b <> bucket_of t k -> chain_at (fst (table_remove t k)) b = chain_at t b.
Proof.
  intros Hne. unfold table_remove. destruct (table_remove_loop _ _); simpl;
    [|reflexivity].
  apply (chain_at_set_chain_ne t); auto.
Qed.

(** ** Searching after an insertion *)

Lemma search_insert_eq (t : Table) (k : string) (v : Value) (ty : ValueType) :
  table_wf t -> table_search (table_insert t k v ty) k = Some (stored_value v ty).
Proof.
  intros Hwf. unfold table_search.
  rewrite (bucket_of_capacity t) by apply capacity_insert.
  rewrite chain_at_insert_eq by assumption.
  destruct (table_insert_loop _ _ _ _) eqn:L.
  - eapply insert_loop_search; eauto.
  - unfold pair_create; simpl. now rewrite String.eqb_refl.
Qed.

Lemma search_insert_ne (t : Table) (k k' : string) (v : Value) (ty : ValueType) :
  table_wf t -> k' <> k ->
  table_search (table_insert t k v ty) k' = table_search t k'.
Proof.
  intros Hwf Hne. unfold table_search.
  rewrite (bucket_of_capacity t) by apply capacity_insert.
  destruct (Nat.eq_dec (bucket_of t k') (bucket_of t k)) as [E|E].
  - rewrite E, chain_at_insert_eq by assumption.
    destruct (table_insert_loop _ _ _ _) eqn:L.
    + eapply insert_loop_search_ne; eauto.
    + unfold pair_create; simpl.
      assert (String.eqb k k' = false) as -> by (apply eqb_key_false; congruence).
      reflexivity.
  - now rewrite chain_at_insert_ne.
Qed.

Lemma size_insert_present (t : Table) (k : string) (v : Value) (ty : ValueType) :
  table_search t k <> None -> size (table_insert t k v ty) = size t.
Proof.
  unfold table_search, table_insert. intros H.
  destruct (table_insert_loop _ _ _ _) eqn:L; [reflexivity |].
  exfalso. apply H. apply search_loop_None.
  now apply (insert_loop_None _ _ v ty).
Qed.

(** C2: inserting a key twice.  For every well-formed table, key [K] and
    values [V1], [V2] (equal or not), after [table_insert] of [K] with [V1]
    and then with [V2] the size is the size after the first insertion and
    [table_search] of [K] yields [V2]. *)
Theorem insert_twice_size_search (t : Table) (K : string) (V1 V2 : Value)
    (ty1 ty2 : ValueType) :
  table_wf t -> well_tagged V2 ty2 ->
  let t1 := table_insert t K V1 ty1 in
  let t2 := table_insert t1 K V2 ty2 in
  size t2 = size t1 /\ table_search t2 K = Some V2.
Proof.
  intros Hwf Htag t1 t2. subst t1 t2. split.
  - apply size_insert_present. now rewrite search_insert_eq.
  - rewrite search_insert_eq by now apply table_wf_insert.
    now rewrite stored_value_tagged.
Qed.

(** C6: round trip.  After [table_insert] of [K] with [V], [table_search] of
    [K] yields [V], also after a further insertion of any other key. *)
Theorem insert_search_round_trip (t : Table) (K : string) (V : Value)
    (ty : ValueType) :
  table_wf t -> well_tagged V ty ->
  table_search (table_insert t K V ty) K = Some V /\
  forall (K' : string) (V' : Value) (ty' : ValueType),
    K' <> K ->
    table_search (table_insert (table_insert t K V ty) K' V' ty') K = Some V.
Proof.
  intros Hwf Htag.
  assert (table_search (table_insert t K V ty) K = Some V) as H1
    by (rewrite search_insert_eq by assumption; now rewrite stored_value_tagged).
  split; [exact H1 |].
  intros K' V' ty' Hne.
  rewrite search_insert_ne; auto using table_wf_insert.
Qed.

(** C7: a key that is in no chain.  [table_search] yields nothing and
    [table_remove] returns false and the very same table, so neither the
    size nor any chain changes. *)
Theorem absent_key_search_remove (t : Table) (K : string) :
  K ∉ table_keys t ->
  table_search t K = None /\ table_remove t K = (t, false).
Proof.
  intros Habs.
  assert (K ∉ (Pair.key <$> chain_at t (bucket_of t K))) as Hc.
  { intros Hin. apply Habs. apply list_elem_of_fmap in Hin.
    destruct Hin as (p & -> & Hp). apply list_elem_of_fmap_2.
    eapply chain_at_entries; eauto. }
  split.
  - unfold table_search. now apply search_loop_None.
  - unfold table_remove. apply remove_loop_None in Hc. now rewrite Hc.
Qed.

(** ** Invariants of the chains *)

Lemma remove_loop_sublist (chain chain' : list Pair) (k : string) :
  table_remove_loop chain k = Some chain' -> chain' `sublist_of` chain.
Proof.
  revert chain'. induction chain as [|p chain IH]; simpl; intros chain' H.
  - discriminate.
  - destruct (String.eqb (Pair.key p) k).
    + inversion H; subst. now apply sublist_cons.
    + destruct (table_remove_loop chain k) as [c|]; simpl in H; [|discriminate].
      inversion H; subst. apply sublist_skip. now apply IH.
Qed.

Lemma remove_loop_length (chain chain' : list Pair) (k : string) :
  table_remove_loop chain k = Some chain' -> length chain = S (length chain').
Proof.
  revert chain'. induction chain as [|p chain IH]; simpl; intros chain' H.
  - discriminate.
  - destruct (String.eqb (Pair.key p) k).
    + now inversion H.
    + destruct (table_remove_loop chain k) as [c|]; simpl in H; [|discriminate].
      inversion H; subst. simpl. f_equal. now apply IH.
Qed.

Lemma insert_loop_length (chain chain' : list Pair) (k : string) (v : Value)
    (ty : ValueType) :
  table_insert_loop chain k v ty = Some chain' -> length chain' = length chain.
Proof.
  intros H. apply insert_loop_keys in H.
  apply (f_equal length) in H. now rewrite !length_fmap in H.
Qed.

Lemma placed_set_chain (t : Table) (b : nat) (c : list Pair) :
  placed t ->
  (forall p : Pair, p ∈ c -> bucket_of t (Pair.key p) = b) ->
  placed (set_chain t b c).
Proof.
  intros Hp Hc i chain p Hi Hin. unfold set_chain in Hi; simpl in Hi.
  change (bucket_of (set_chain t b c) (Pair.key p)) with (bucket_of t (Pair.key p)).
  rewrite list_lookup_insert in Hi. destruct (decide _) as [[-> _]|_].
  - inversion Hi; subst. now apply Hc.
  - eapply Hp; eauto.
Qed.

Lemma chains_nodup_set_chain (t : Table) (b : nat) (c : list Pair) :
  chains_nodup t -> NoDup (Pair.key <$> c) -> chains_nodup (set_chain t b c).
Proof.
  intros Hn Hc i chain Hi. unfold set_chain in Hi; simpl in Hi.
  rewrite list_lookup_insert in Hi. destruct (decide _) as [[-> _]|_].
  - now inversion Hi; subst.
  - eapply Hn; eauto.
Qed.

Lemma entries_set_chain (t : Table) (b : nat) (c : list Pair) :
  (b < length (buckets t))%nat ->
  exists pre post : list Pair,
    entries t = pre ++ chain_at t b ++ post /\
    entries (set_chain t b c) = pre ++ c ++ post.
Proof.
  intros Hlt. exists (concat (take b (buckets t))), (concat (drop (S b) (buckets t))).
  unfold entries, set_chain; simpl. split.
  - rewrite <- (take_drop_middle (buckets t) b (chain_at t b)) at 1
      by now apply lookup_chain_at.
    now rewrite concat_app, concat_cons.
  - rewrite insert_take_drop by assumption.
    now rewrite concat_app, concat_cons.
Qed.

Lemma length_entries_set_chain (t : Table) (b : nat) (c : list Pair) :
  (b < length (buckets t))%nat ->
  (length (entries (set_chain t b c)) + length (chain_at t b) =
   length (entries t) + length c)%nat.
Proof.
  intros Hlt. destruct (entries_set_chain t b c Hlt) as (pre & post & -> & ->).
  rewrite !length_app. lia.
Qed.

(** Chains of distinct keys, each in the bucket of its keys, share no key. *)
Lemma NoDup_concat_placed (g : string -> nat) (l : list (list string)) (o : nat) :
  (forall (i : nat) (c : list string) (k : string),
      l !! i = Some c -> k ∈ c -> g k = (o + i)%nat) ->
  (forall (i : nat) (c : list string), l !! i = Some c -> NoDup c) ->
  NoDup (concat l).
Proof.
  revert o. induction l as [|c l IH]; intros o Hg Hn; simpl.
  - apply NoDup_nil_2.
  - apply NoDup_app. split; [apply (Hn 0%nat); reflexivity |]. split.
    + intros k Hk Hk'. apply list_elem_of_In, in_concat in Hk'.
      destruct Hk' as (c' & Hc' & Hkc').
      apply list_elem_of_In, list_elem_of_lookup_1 in Hc'. destruct Hc' as [i Hi].
      pose proof (Hg 0%nat c k eq_refl Hk) as H0.
      pose proof (Hg (S i) c' k Hi) as H1.
      rewrite H1 in H0 by now apply list_elem_of_In. lia.
    + apply (IH (S o)).
      * intros i c' k Hi Hk. rewrite (Hg (S i) c' k Hi Hk). lia.
      * intros i c' Hi. apply (Hn (S i)). exact Hi.
Qed.

Lemma table_keys_NoDup (t : Table) :
  placed t -> chains_nodup t -> NoDup (table_keys t).
Proof.
  intros Hp Hn. unfold table_keys, entries.
  change (NoDup (map Pair.key (concat (buckets t)))). rewrite concat_map.
  apply (NoDup_concat_placed (bucket_of t) _ 0).
  - intros i c k Hi Hk.
    change (map (map Pair.key) (buckets t)) with (fmap (M:=list) (fmap (M:=list) Pair.key) (buckets t)) in Hi.
    rewrite list_lookup_fmap in Hi.
    destruct (buckets t !! i) as [chain|] eqn:E; simpl in Hi; [|discriminate].
    inversion Hi; subst c. apply list_elem_of_fmap in Hk.
    destruct Hk as (p & -> & Hp'). simpl. eapply Hp; eauto.
  - intros i c Hi.
    change (map (map Pair.key) (buckets t)) with (fmap (M:=list) (fmap (M:=list) Pair.key) (buckets t)) in Hi.
    rewrite list_lookup_fmap in Hi.
    destruct (buckets t !! i) as [chain|] eqn:E; simpl in Hi; [|discriminate].
    inversion Hi; subst c. eapply Hn; eauto.
Qed.

Lemma placed_chain_at (t : Table) (b : nat) (p : Pair) :
  placed t -> p ∈ chain_at t b -> bucket_of t (Pair.key p) = b.
Proof.
  intros Hp. unfold chain_at. rewrite list_lookup_total_alt.
  destruct (buckets t !! b) as [chain|] eqn:E; simpl; intros Hin.
  - eapply Hp; eauto.
  - now apply not_elem_of_nil in Hin.
Qed.

Lemma chains_nodup_chain_at (t : Table) (b : nat) :
  chains_nodup t -> NoDup (Pair.key <$> chain_at t b).
Proof.
  intros Hn. unfold chain_at. rewrite list_lookup_total_alt.
  destruct (buckets t !! b) as [chain|] eqn:E; simpl.
  - eapply Hn; eauto.
  - apply NoDup_nil_2.
Qed.

Lemma placed_size (t : Table) (s : Z) :
  placed t -> placed (mkTable (buckets t) (capacity t) s).
Proof. intros H i chain p. exact (H i chain p). Qed.

Lemma chains_nodup_size (t : Table) (s : Z) :
  chains_nodup t -> chains_nodup (mkTable (buckets t) (capacity t) s).
Proof. intros H i chain. exact (H i chain). Qed.

Lemma same_key_placed (t : Table) (b : nat) (c : list Pair) (p : Pair) :
  placed t -> Pair.key <$> c = Pair.key <$> chain_at t b -> p ∈ c ->
  bucket_of t (Pair.key p) = b.
Proof.
  intros Hp Hk Hin. apply (list_elem_of_fmap_2 Pair.key) in Hin.
  rewrite Hk in Hin. apply list_elem_of_fmap in Hin.
  destruct Hin as (q & -> & Hq). eapply placed_chain_at; eauto.
Qed.

Lemma placed_insert (t : Table) (k : string) (v : Value) (ty : ValueType) :
  placed t -> placed (table_insert t k v ty).
Proof.
  intros Hp. unfold table_insert.
  destruct (table_insert_loop _ _ _ _) as [c|] eqn:L.
  - apply placed_set_chain; [assumption |].
    intros p Hin.
    exact (same_key_placed t _ c p Hp (insert_loop_keys _ _ _ _ _ L) Hin).
  - apply (placed_size (set_chain t (bucket_of t k) _)).
    apply placed_set_chain; [assumption |].
    intros p Hin. unfold pair_create in Hin. apply elem_of_cons in Hin.
    destruct Hin as [-> | Hin]; [reflexivity |].
    eapply placed_chain_at; eauto.
Qed.

Lemma placed_remove (t : Table) (k : string) :
  placed t -> placed (fst (table_remove t k)).
Proof.
  intros Hp. unfold table_remove.
  destruct (table_remove_loop _ _) as [c|] eqn:L; simpl; [|assumption].
  apply (placed_size (set_chain t (bucket_of t k) _)).
  apply placed_set_chain; [assumption |].
  intros p Hin. apply remove_loop_sublist in L.
  eapply placed_chain_at; eauto using elem_of_sublist.
Qed.

Lemma chains_nodup_insert (t : Table) (k : string) (v : Value) (ty : ValueType) :
  chains_nodup t -> chains_nodup (table_insert t k v ty).
Proof.
  intros Hn. unfold table_insert.
  destruct (table_insert_loop _ _ _ _) as [c|] eqn:L.
  - apply chains_nodup_set_chain; [assumption |].
    rewrite (insert_loop_keys _ _ _ _ _ L). now apply chains_nodup_chain_at.
  - apply (chains_nodup_size (set_chain t (bucket_of t k) _)).
    apply chains_nodup_set_chain; [assumption |].
    unfold pair_create. rewrite fmap_cons. simpl. apply NoDup_cons. split.
    + now apply (insert_loop_None _ _ v ty).
    + now apply chains_nodup_chain_at.
Qed.

Lemma chains_nodup_remove (t : Table) (k : string) :
  chains_nodup t -> chains_nodup (fst (table_remove t k)).
Proof.
  intros Hn. unfold table_remove.
  destruct (table_remove_loop _ _) as [c|] eqn:L; simpl; [|assumption].
  apply (chains_nodup_size (set_chain t (bucket_of t k) _)).
  apply chains_nodup_set_chain; [assumption |].
  apply remove_loop_sublist in L.
  apply (sublist_NoDup _ (Pair.key <$> chain_at t (bucket_of t k)));
    [apply chains_nodup_chain_at; assumption | now apply fmap_sublist].
Qed.

(** The number of entries after an insertion: unchanged when the key was
    found, one more otherwise. *)
Lemma length_entries_insert (t : Table) (k : string) (v : Value) (ty : ValueType) :
  table_wf t ->
  length (entries (table_insert t k v ty)) =
  match table_insert_loop (chain_at t (bucket_of t k)) k v ty with
  | Some _ => length (entries t)
  | None => S (length (entries t))
  end.
Proof.
  intros Hwf. pose proof (bucket_of_lt t k Hwf) as Hlt.
  unfold table_insert. destruct (table_insert_loop _ _ _ _) as [c|] eqn:L.
  - pose proof (length_entries_set_chain t _ c Hlt) as H.
    rewrite (insert_loop_length _ _ _ _ _ L) in H. lia.
  - pose proof (length_entries_set_chain t _
                  (pair_create k v (chain_at t (bucket_of t k)) ty) Hlt) as H.
    unfold pair_create in H at 2. simpl in H.
    change (entries (mkTable ?b ?c ?s)) with (concat b).
    unfold entries in H at 1. lia.
Qed.

Lemma length_entries_remove (t : Table) (k : string) :
  table_wf t ->
  length (entries t) =
  match table_remove_loop (chain_at t (bucket_of t k)) k with
  | Some _ => S (length (entries (fst (table_remove t k))))
  | None => length (entries (fst (table_remove t k)))
  end.
Proof.
  intros Hwf. pose proof (bucket_of_lt t k Hwf) as Hlt.
  unfold table_remove. destruct (table_remove_loop _ _) as [c|] eqn:L; simpl;
    [|reflexivity].
  pose proof (length_entries_set_chain t _ c Hlt) as H.
  rewrite (remove_loop_length _ _ _ L) in H.
  unfold entries at 2. unfold entries in H at 1. unfold set_chain in H.
  simpl in H |- *. lia.
Qed.

Lemma to_size_t_succ (n : nat) :
  to_size_t (to_size_t (Z.of_nat n) + 1) = to_size_t (Z.of_nat (S n)).
Proof.
  unfold to_size_t, UINT64_MOD. rewrite Z.add_mod_idemp_l by lia.
  f_equal. lia.
Qed.

Lemma to_size_t_pred (n : nat) :
  to_size_t (to_size_t (Z.of_nat (S n)) - 1) = to_size_t (Z.of_nat n).
Proof.
  unfold to_size_t, UINT64_MOD. rewrite Zminus_mod_idemp_l.
  f_equal. lia.
Qed.

Lemma size_counts_insert (t : Table) (k : string) (v : Value) (ty : ValueType) :
  table_wf t -> size_counts t -> size_counts (table_insert t k v ty).
Proof.
  intros Hwf Hs. unfold size_counts. rewrite length_entries_insert by assumption.
  unfold table_insert. destruct (table_insert_loop _ _ _ _); simpl.
  - exact Hs.
  - rewrite Hs. apply to_size_t_succ.
Qed.

Lemma size_counts_remove (t : Table) (k : string) :
  table_wf t -> size_counts t -> size_counts (fst (table_remove t k)).
Proof.
  intros Hwf Hs. unfold size_counts.
  pose proof (length_entries_remove t k Hwf) as Hl. revert Hl.
  unfold table_remove. destruct (table_remove_loop _ _); simpl; intros Hl.
  - rewrite Hs, Hl. apply to_size_t_pred.
  - exact Hs.
Qed.

Lemma table_inv_insert (t : Table) (k : string) (v : Value) (ty : ValueType) :
  table_inv t -> table_inv (table_insert t k v ty).
Proof.
  intros (Hwf & Hp & Hn & Hs). repeat split;
    auto using placed_insert, chains_nodup_insert, size_counts_insert;
    now apply table_wf_insert.
Qed.

Lemma table_inv_remove (t : Table) (k : string) :
  table_inv t -> table_inv (fst (table_remove t k)).
Proof.
  intros (Hwf & Hp & Hn & Hs). repeat split;
    auto using placed_remove, chains_nodup_remove, size_counts_remove;
    now apply table_wf_remove.
Qed.

(** ** Sequences of operations *)

Lemma table_apply_remove (t : Table) (k : string) :
  fst (table_apply t (OpRemove k)) = fst (table_remove t k).
Proof. simpl. now destruct (table_remove t k). Qed.

Lemma table_inv_apply (t : Table) (op : Op) :
  table_inv t -> table_inv (fst (table_apply t op)).
Proof.
  intros H. destruct op as [k v ty | k | k].
  - now apply table_inv_insert.
  - exact H.
  - rewrite table_apply_remove. now apply table_inv_remove.
Qed.

Lemma capacity_apply (t : Table) (op : Op) :
  capacity (fst (table_apply t op)) = capacity t.
Proof.
  destruct op as [k v ty | k | k].
  - apply capacity_insert.
  - reflexivity.
  - rewrite table_apply_remove. apply capacity_remove.
Qed.

Lemma length_entries_apply (t : Table) (op : Op) :
  table_wf t ->
  (length (entries (fst (table_apply t op))) <= S (length (entries t)))%nat.
Proof.
  intros Hwf. destruct op as [k v ty | k | k].
  - simpl. rewrite length_entries_insert by assumption.
    destruct (table_insert_loop _ _ _ _); lia.
  - simpl. lia.
  - rewrite table_apply_remove.
    pose proof (length_entries_remove t k Hwf) as H.
    destruct (table_remove_loop _ _); lia.
Qed.

Lemma table_run_cons (t : Table) (op : Op) (ops : list Op) :
  table_run t (op :: ops) = table_run (fst (table_apply t op)) ops.
Proof. reflexivity. Qed.

Lemma table_inv_run (t : Table) (ops : list Op) :
  table_inv t -> table_inv (table_run t ops).
Proof.
  revert t. induction ops as [|op ops IH]; intros t H; [exact H |].
  rewrite table_run_cons. apply IH. now apply table_inv_apply.
Qed.

Lemma capacity_run (t : Table) (ops : list Op) :
  capacity (table_run t ops) = capacity t.
Proof.
  revert t. induction ops as [|op ops IH]; intros t; [reflexivity |].
  rewrite table_run_cons, IH. apply capacity_apply.
Qed.

Lemma length_entries_run (t : Table) (ops : list Op) :
  table_inv t ->
  (length (entries (table_run t ops)) <= length (entries t) + length ops)%nat.
Proof.
  revert t. induction ops as [|op ops IH]; intros t H; [simpl; lia |].
  pose proof (IH _ (table_inv_apply t op H)) as H1.
  pose proof (length_entries_apply t op (proj1 H)) as H2.
  rewrite table_run_cons. simpl length. lia.
Qed.

(** ** Tables as [table_create] makes them *)

Section Create.

(** The macro [DEFAULT_CAPACITY], whose header is not among the sources, and
    the one fact the spec states about it. *)
Variable DEFAULT_CAPACITY : Z.
Hypothesis DEFAULT_CAPACITY_pos : 0 < DEFAULT_CAPACITY.

Lemma concat_replicate_nil (n : nat) : concat (replicate n ([] : list Pair)) = [].
Proof. induction n as [|n IH]; simpl; [reflexivity | exact IH]. Qed.

Lemma capacity_create_pos (c : Z) :
  0 <= c -> 0 < capacity (table_create DEFAULT_CAPACITY c).
Proof.
  intros Hc. unfold table_create; simpl.
  destruct (c =? 0) eqn:E; [assumption |].
  apply Z.eqb_neq in E. lia.
Qed.

Lemma table_inv_create (c : Z) :
  0 <= c -> table_inv (table_create DEFAULT_CAPACITY c).
Proof.
  intros Hc. pose proof (capacity_create_pos c Hc) as Hpos.
  unfold table_create in *; simpl in *.
  repeat split; simpl.
  - exact Hpos.
  - apply length_replicate.
  - intros i chain p Hi Hin. apply lookup_replicate_1 in Hi.
    destruct Hi as [-> _]. now apply not_elem_of_nil in Hin.
  - intros i chain Hi. apply lookup_replicate_1 in Hi.
    destruct Hi as [-> _]. apply NoDup_nil_2.
  - unfold size_counts, entries; simpl. now rewrite concat_replicate_nil.
Qed.

(** C4: the invariant of the table.  After any sequence of insertions,
    searches and removals on a fresh table (fewer than 2^64 operations, so
    that the [size_t] counter cannot wrap), [size] is the number of entries
    in the chains, no key occurs twice among the entries, every entry hangs
    off the bucket [hash_from_data (key) % capacity], and [capacity] is the
    one chosen at creation. *)
Theorem reachable_table_invariant (c : Z) (ops : list Op) :
  0 <= c ->
  Z.of_nat (length ops) < UINT64_MOD ->
  let t := table_run (table_create DEFAULT_CAPACITY c) ops in
  size t = Z.of_nat (length (entries t)) /\
  NoDup (table_keys t) /\
  (forall (i : nat) (chain : list Pair) (p : Pair),
      buckets t !! i = Some chain -> p ∈ chain ->
      Z.of_nat i =
      hash_from_data (Pair.key p) (String.length (Pair.key p)) mod capacity t) /\
  capacity t = capacity (table_create DEFAULT_CAPACITY c).
Proof.
  intros Hc Hops t.
  pose proof (table_inv_create c Hc) as H0.
  pose proof (table_inv_run _ ops H0) as (Hwf & Hp & Hn & Hs).
  pose proof (length_entries_run _ ops H0) as Hlen.
  fold t in Hwf, Hp, Hn, Hs, Hlen.
  assert (entries (table_create DEFAULT_CAPACITY c) = []) as E0
    by (unfold entries, table_create; simpl; apply concat_replicate_nil).
  rewrite E0 in Hlen. simpl in Hlen.
  repeat split.
  - rewrite Hs. unfold to_size_t. apply Z.mod_small. lia.
  - now apply table_keys_NoDup.
  - intros i chain p Hi Hin. rewrite <- (Hp i chain p Hi Hin).
    unfold bucket_of. destruct Hwf as [Hpos _].
    pose proof (Z.mod_pos_bound
                  (hash_from_data (Pair.key p) (String.length (Pair.key p)))
                  _ Hpos).
    lia.
  - apply capacity_run.
Qed.

(** C8: a table created with capacity 0.  Its capacity is
    [DEFAULT_CAPACITY] (positive as soon as the macro is), and every
    sequence of operations yields on it the observations and sizes it
    yields on a table created with [DEFAULT_CAPACITY] itself. *)
Theorem create_zero_is_default :
  capacity (table_create DEFAULT_CAPACITY 0) = DEFAULT_CAPACITY /\
  (0 < DEFAULT_CAPACITY -> 0 < capacity (table_create DEFAULT_CAPACITY 0)) /\
  table_create DEFAULT_CAPACITY 0 =
    table_create DEFAULT_CAPACITY DEFAULT_CAPACITY /\
  forall ops : list Op,
    table_trace (table_create DEFAULT_CAPACITY 0) ops =
    table_trace (table_create DEFAULT_CAPACITY DEFAULT_CAPACITY) ops.
Proof.
  assert (table_create DEFAULT_CAPACITY 0 =
          table_create DEFAULT_CAPACITY DEFAULT_CAPACITY) as E.
  { unfold table_create. simpl.
    destruct (DEFAULT_CAPACITY =? 0); reflexivity. }
  split; [reflexivity |]. split; [intros H; exact H |]. split; [exact E |].
  intros ops. now rewrite E.
Qed.

End Create.

(** C10: updating a key that is present.  One cell of one chain, the first
    of its chain to hold the key, is overwritten with the new value and
    type (for a value that carries its own type tag); the cell stays where
    it is, wherever in the chain that is, and every other cell, every other
    bucket, the capacity and the size are as before. *)
Theorem insert_present_in_place (t : Table) (K : string) (V : Value)
    (ty : ValueType) :
  table_wf t -> placed t -> K ∈ table_keys t -> well_tagged V ty ->
  exists (j : nat) (p : Pair),
    chain_at t (bucket_of t K) !! j = Some p /\ Pair.key p = K /\
    (K ∉ (Pair.key <$> take j (chain_at t (bucket_of t K)))) /\
    table_insert t K V ty =
    mkTable
      (<[bucket_of t K :=
           <[j := mkPair K V ty]> (chain_at t (bucket_of t K))]>
         (buckets t))
      (capacity t) (size t).
Proof.
  intros Hwf Hp Hin Htag. unfold table_keys in Hin.
  apply list_elem_of_fmap in Hin. destruct Hin as (q & -> & Hq).
  apply entries_chain_at in Hq. destruct Hq as (b & Hb & Hq).
  pose proof (placed_chain_at t b q Hp Hq) as Hbk. subst b.
  unfold table_insert.
  destruct (table_insert_loop _ _ _ _) as [c|] eqn:L.
  - destruct (insert_loop_Some _ _ _ _ _ L) as (j & p & Hj & Hk & Hfirst & ->).
    exists j, p. repeat split; auto.
    unfold set_chain, pair_update.
    now rewrite Hk, (stored_value_tagged _ _ Htag).
  - exfalso. apply insert_loop_None in L. apply L.
    now apply list_elem_of_fmap_2.
Qed.

(** ** The text dump *)

Lemma lines_app (a b : list Pair) : lines (a ++ b) = lines a +:+ lines b.
Proof.
  induction a as [|p a IH]; simpl; [reflexivity |].
  now rewrite IH, append_assoc.
Qed.

Lemma format_chain_lines (chain : list Pair) (stream : string) :
  table_format_chain chain stream = stream +:+ lines chain.
Proof.
  revert stream. induction chain as [|p chain IH]; intros stream; simpl.
  - now rewrite append_nil_r.
  - rewrite IH. unfold pair_format. apply append_assoc.
Qed.

Lemma format_loop_lines (t : Table) (n i : nat) (stream : string) :
  (i + n <= length (buckets t))%nat ->
  table_format_loop t i n stream =
  stream +:+ lines (concat (take n (drop i (buckets t)))).
Proof.
  revert i stream. induction n as [|n IH]; intros i stream Hle; simpl.
  - now rewrite append_nil_r.
  - rewrite IH by lia. rewrite format_chain_lines, append_assoc. f_equal.
    rewrite (drop_S (buckets t) (chain_at t i) i) by (apply lookup_chain_at; lia).
    simpl. now rewrite lines_app.
Qed.

Lemma format_lines (t : Table) (stream : string) :
  table_wf t -> table_format (Some t) stream = stream +:+ lines (entries t).
Proof.
  intros [Hc Hl]. simpl. rewrite format_loop_lines by lia.
  now rewrite drop_0, <- Hl, firstn_all.
Qed.

Lemma chain_at_insert_absent (t : Table) (K : string) (V : Value) (ty : ValueType) :
  table_wf t -> K ∉ (Pair.key <$> chain_at t (bucket_of t K)) ->
  chain_at (table_insert t K V ty) (bucket_of t K) =
  mkPair K (stored_value V ty) ty :: chain_at t (bucket_of t K).
Proof.
  intros Hwf Habs. rewrite chain_at_insert_eq by assumption.
  apply (insert_loop_None _ _ V ty) in Habs. now rewrite Habs.
Qed.

Lemma chain_keys_insert_present (t : Table) (K : string) (V : Value)
    (ty : ValueType) (b : nat) :
  table_wf t -> K ∈ (Pair.key <$> chain_at t (bucket_of t K)) ->
  Pair.key <$> chain_at (table_insert t K V ty) b = Pair.key <$> chain_at t b.
Proof.
  intros Hwf Hin. destruct (Nat.eq_dec b (bucket_of t K)) as [-> | Hne].
  - rewrite chain_at_insert_eq by assumption.
    destruct (table_insert_loop _ _ _ _) as [c|] eqn:L.
    + eapply insert_loop_keys; eauto.
    + apply insert_loop_None in L. contradiction.
  - now rewrite chain_at_insert_ne.
Qed.

Example pair_line_number :
  pair_line (mkPair "k" (VNumber (-42)) NUMBER) = "k" +:+ TAB +:+ "-42" +:+ NEWLINE.
Proof. reflexivity. Qed.

(** C3, as the code has it: [table_format] writes the buckets in index order
    and each chain from its head, one line per entry, a [STRING] value as it
    is and a [NUMBER] value in decimal.  A key that is newly inserted becomes
    the head of its chain and is written first for its bucket; an update of
    a key that is present leaves the order of the keys in every chain as it
    was. *)
Theorem format_order (t : Table) (stream : string) :
  table_wf t ->
  table_format (Some t) stream = stream +:+ lines (entries t) /\
  (forall (k s : string),
      pair_line (mkPair k (VString s) STRING) = k +:+ TAB +:+ s +:+ NEWLINE) /\
  (forall (k : string) (n : Z),
      pair_line (mkPair k (VNumber n) NUMBER) = k +:+ TAB +:+ pretty n +:+ NEWLINE) /\
  (forall (K : string) (V : Value) (ty : ValueType),
      K ∉ (Pair.key <$> chain_at t (bucket_of t K)) ->
      chain_at (table_insert t K V ty) (bucket_of t K) =
      mkPair K (stored_value V ty) ty :: chain_at t (bucket_of t K)) /\
  (forall (K : string) (V : Value) (ty : ValueType) (b : nat),
      K ∈ (Pair.key <$> chain_at t (bucket_of t K)) ->
      Pair.key <$> chain_at (table_insert t K V ty) b = Pair.key <$> chain_at t b).
Proof.
  intros Hwf. split; [now apply format_lines |].
  split; [reflexivity |]. split; [reflexivity |]. split.
  - intros K V ty. now apply chain_at_insert_absent.
  - intros K V ty b. now apply chain_keys_insert_present.
Qed.

(** ** Concrete tables *)

(** C3, as stated, fails: keys ["a"] and ["b"] share the single bucket of a
    table of capacity 1; after inserting ["a"], then ["b"], then updating
    ["a"], the key most recently inserted or updated is ["a"], yet the dump
    writes ["b"] first. *)
Lemma format_updated_key_not_first :
  let t := table_run (table_create 16 1)
             [OpInsert "a" (VString "1") STRING;
              OpInsert "b" (VString "2") STRING;
              OpInsert "a" (VString "3") STRING] in
  bucket_of t "a" = bucket_of t "b" /\
  table_format (Some t) "" =
    "b" +:+ TAB +:+ "2" +:+ NEWLINE +:+ "a" +:+ TAB +:+ "3" +:+ NEWLINE /\
  ~ first_in_bucket t "a".
Proof.
  split; [reflexivity |]. split; [reflexivity |].
  intros (p & rest & Hc & Hk). vm_compute in Hc.
  inversion Hc; subst p. discriminate Hk.
Qed.

Lemma sample_table_inv : table_inv sample_table.
Proof. apply table_inv_run, table_inv_create; lia. Qed.

Lemma insert_twice_size_search_witness :
  table_wf sample_table /\ well_tagged (VNumber 7) NUMBER /\
  (let t1 := table_insert sample_table "k" (VString "x") STRING in
   let t2 := table_insert t1 "k" (VNumber 7) NUMBER in
   size t2 = size t1 /\ table_search t2 "k" = Some (VNumber 7)).
Proof.
  assert (table_wf sample_table) as Hwf by (split; reflexivity).
  split; [exact Hwf |]. split; [exact I |].
  exact (insert_twice_size_search sample_table "k" (VString "x") (VNumber 7)
           STRING NUMBER Hwf I).
Defined.

Lemma insert_search_round_trip_witness :
  table_wf sample_table /\ well_tagged (VString "x") STRING /\
  table_search (table_insert sample_table "k" (VString "x") STRING) "k"
    = Some (VString "x") /\
  forall (K' : string) (V' : Value) (ty' : ValueType),
    K' <> "k" ->
    table_search
      (table_insert (table_insert sample_table "k" (VString "x") STRING) K' V' ty')
      "k" = Some (VString "x").
Proof.
  assert (table_wf sample_table) as Hwf by (split; reflexivity).
  split; [exact Hwf |]. split; [exact I |].
  exact (insert_search_round_trip sample_table "k" (VString "x") STRING Hwf I).
Defined.

Lemma absent_key_search_remove_witness :
  ("c" ∉ table_keys sample_table) /\
  table_search sample_table "c" = None /\
  table_remove sample_table "c" = (sample_table, false).
Proof.
  assert ("c" ∉ table_keys sample_table) as Habs.
  { vm_compute. intros H. inversion H as [|? ? ? H1]; subst.
    inversion H1 as [|? ? ? H2]; subst. inversion H2. }
  split; [exact Habs |].
  exact (absent_key_search_remove sample_table "c" Habs).
Defined.

Lemma collide_table_inv : table_inv collide_table.
Proof. apply table_inv_run, table_inv_create; lia. Qed.

Lemma insert_present_in_place_witness :
  table_wf collide_table /\ placed collide_table /\
  ("a" ∈ table_keys collide_table) /\ well_tagged (VNumber 5) NUMBER /\
  chain_at collide_table (bucket_of collide_table "a") =
    [mkPair "b" (VNumber 2) NUMBER; mkPair "a" (VString "first") STRING] /\
  exists (j : nat) (p : Pair),
    j = 1%nat /\
    chain_at collide_table (bucket_of collide_table "a") !! j = Some p /\
    Pair.key p = "a" /\
    table_insert collide_table "a" (VNumber 5) NUMBER =
    mkTable
      (<[bucket_of collide_table "a" :=
           <[j := mkPair "a" (VNumber 5) NUMBER]>
             (chain_at collide_table (bucket_of collide_table "a"))]>
         (buckets collide_table))
      (capacity collide_table) (size collide_table).
Proof.
  destruct collide_table_inv as (Hwf & Hp & _ & _).
  assert ("a" ∈ table_keys collide_table) as Hin.
  { apply list_elem_of_In. vm_compute. auto. }
  assert (chain_at collide_table (bucket_of collide_table "a") =
          [mkPair "b" (VNumber 2) NUMBER; mkPair "a" (VString "first") STRING])
    as Hchain by reflexivity.
  split; [exact Hwf |]. split; [exact Hp |]. split; [exact Hin |].
  split; [exact I |]. split; [exact Hchain |].
  destruct (insert_present_in_place collide_table "a" (VNumber 5) NUMBER
              Hwf Hp Hin I) as (j & p & Hj & Hk & _ & Heq).
  exists j, p. split; [|split; [exact Hj | split; [exact Hk | exact Heq]]].
  rewrite Hchain in Hj. destruct j as [|[|j]].
  - simpl in Hj. inversion Hj; subst p. discriminate Hk.
  - reflexivity.
  - discriminate Hj.
Defined.

Lemma reachable_table_invariant_witness :
  let ops := [OpInsert "a" (VString "first") STRING;
              OpInsert "b" (VNumber 2) NUMBER;
              OpInsert "a" (VString "again") STRING;
              OpRemove "b"] in
  let t := table_run (table_create 16 0) ops in
  0 < 16 /\ 0 <= 0 /\ Z.of_nat (length ops) < UINT64_MOD /\
  size t = Z.of_nat (length (entries t)) /\
  NoDup (table_keys t) /\
  (forall (i : nat) (chain : list Pair) (p : Pair),
      buckets t !! i = Some chain -> p ∈ chain ->
      Z.of_nat i =
      hash_from_data (Pair.key p) (String.length (Pair.key p)) mod capacity t) /\
  capacity t = capacity (table_create 16 0).
Proof.
  intros ops t.
  assert (0 < 16) as Hd by lia.
  assert (0 <= 0) as Hc by lia.
  assert (Z.of_nat (length ops) < UINT64_MOD) as Hn by reflexivity.
  split; [exact Hd |]. split; [exact Hc |]. split; [exact Hn |].
  exact (reachable_table_invariant 16 Hd 0 ops Hc Hn).
Defined.

Lemma create_zero_is_default_witness :
  capacity (table_create 16 0) = 16 /\
  0 < capacity (table_create 16 0) /\
  forall ops : list Op,
    table_trace (table_create 16 0) ops = table_trace (table_create 16 16) ops.
Proof.
  destruct (create_zero_is_default 16) as (Hcap & Hpos & _ & Htrace).
  split; [exact Hcap |]. split; [apply Hpos; lia | exact Htrace].
Defined.

Lemma format_order_witness :
  table_wf sample_table /\
  table_format (Some sample_table) "" = "" +:+ lines (entries sample_table).
Proof.
  assert (table_wf sample_table) as Hwf by (split; reflexivity).
  split; [exact Hwf |].
  exact (proj1 (format_order sample_table "" Hwf)).
Defined.

End TableTheory.

(** * Properties of the scanner *)

Module DuplicatesTheory.
Import Hash Pair Table Duplicates TableSpec ScanSpec TableTheory.

(** ** [check_file] *)

(** [check_file] refines the classification: it returns the count of the
    class, inserts the path under its checksum exactly for an original, and
    prints exactly for a duplicate when neither option is set. *)
Lemma check_file_classify (sys : System) (path : string) (st : State)
    (options : Options) :
  check_file sys path st options =
  match classify_file sys path (checksums st) with
  | Duplicate original =>
      (1, if negb (count options) && negb (quiet options)
          then mkState (checksums st) (out st +:+ duplicate_line path original) (err st)
          else st)
  | Original =>
      (0, mkState
            (match hash_from_file sys path with
             | Some hex => table_insert (checksums st) hex (VString path) STRING
             | None => checksums st
             end) (out st) (err st))
  | Unreadable => (0, st)
  end.
Proof.
  unfold check_file, classify_file.
  destruct (hash_from_file sys path) as [hex|]; [|reflexivity].
  destruct (table_search (checksums st) hex) as [v|]; [|reflexivity].
  destruct options as [[|] [|]]; reflexivity.
Qed.

Lemma check_file_count (sys : System) (path : string) (st : State)
    (options : Options) :
  fst (check_file sys path st options) =
  duplicate_count (classify_file sys path (checksums st)).
Proof.
  rewrite check_file_classify.
  now destruct (classify_file sys path (checksums st)).
Qed.

(** C9: the options never reach the count or the table.  For every path and
    state there are one count (1 for a duplicate, 0 otherwise) and one table
    that [check_file] yields under all four settings of the options;
    standard error is left alone; and standard output either is left alone
    or, when the count is 1 and neither option is set, gains the duplicate
    line. *)
Theorem check_file_options_only_print (sys : System) (path : string) (st : State) :
  exists (n : Z) (table' : Table),
    n = duplicate_count (classify_file sys path (checksums st)) /\
    (n = 0 \/ n = 1) /\
    forall options : Options,
      fst (check_file sys path st options) = n /\
      checksums (snd (check_file sys path st options)) = table' /\
      err (snd (check_file sys path st options)) = err st /\
      (out (snd (check_file sys path st options)) = out st \/
       (n = 1 /\ count options = false /\ quiet options = false /\
        exists original : string,
          out (snd (check_file sys path st options)) =
          out st +:+ duplicate_line path original)).
Proof.
  unfold check_file, classify_file.
  destruct (hash_from_file sys path) as [hex|].
  - destruct (table_search (checksums st) hex) as [v|].
    + exists 1, (checksums st). split; [reflexivity |]. split; [now right |].
      intros [[|] [|]]; simpl; repeat split; auto.
      right. repeat split; eauto.
    + exists 0, (table_insert (checksums st) hex (VString path) STRING).
      split; [reflexivity |]. split; [now left |].
      intros options; simpl. auto.
  - exists 0, (checksums st). split; [reflexivity |]. split; [now left |].
    intros options; simpl. auto.
Qed.

(** ** Arithmetic of the counter *)

Lemma to_int_range (z : Z) : int_range (to_int z).
Proof.
  unfold int_range, to_int.
  pose proof (Z.mod_pos_bound z (2 ^ 32) ltac:(lia)).
  destruct (z mod 2 ^ 32 <? 2 ^ 31) eqn:E;
    [apply Z.ltb_lt in E | apply Z.ltb_ge in E]; lia.
Qed.

Lemma to_int_id (z : Z) : int_range z -> to_int z = z.
Proof.
  unfold int_range, to_int. intros H.
  destruct (Z_lt_dec z 0) as [Hneg | Hpos].
  - assert (z mod 2 ^ 32 = z + 2 ^ 32) as ->
      by (symmetry; apply (Z.mod_unique _ _ (-1)); lia).
    destruct (z + 2 ^ 32 <? 2 ^ 31) eqn:E;
      [apply Z.ltb_lt in E | apply Z.ltb_ge in E]; lia.
  - rewrite Z.mod_small by lia.
    destruct (z <? 2 ^ 31) eqn:E;
      [apply Z.ltb_lt in E | apply Z.ltb_ge in E]; lia.
Qed.

Lemma to_int_to_size_t (z : Z) : to_int (to_size_t z) = to_int z.
Proof.
  unfold to_int, to_size_t, UINT64_MOD.
  assert ((z mod 2 ^ 64) mod 2 ^ 32 = z mod 2 ^ 32) as ->; [|reflexivity].
  change (2 ^ 64) with (2 ^ 32 * 2 ^ 32).
  rewrite Z.rem_mul_r by lia.
  rewrite Z.mul_comm, Z.mod_add by lia. apply Z.mod_mod. lia.
Qed.

(** Adding a count of zero leaves an [int] counter as it is. *)
Lemma count_add_0 (cnt : Z) : int_range cnt -> count_add cnt 0 = cnt.
Proof.
  intros H. unfold count_add. rewrite Z.add_0_r.
  rewrite !to_int_to_size_t. now apply to_int_id.
Qed.

(** ** Unreadable files *)

(** C5: a file whose checksum cannot be computed.  [check_file] returns 0
    and leaves the table and both streams as they are, under any options;
    the spec's classification of it is [Unreadable]; in the loop of
    [check_directory] its entry changes neither the counter nor the state;
    and a sibling file listed right after it or right before it is handed
    to [check_file] in the state it would meet without the unreadable file,
    and its count is added to the counter.  So a directory holding the two
    pseudo-entries, the unreadable file and one sibling file is scanned
    with the result of [check_file] on the sibling. *)
Theorem unreadable_file_skipped (sys : System) (path : string) (st : State)
    (options : Options) :
  hash_from_file sys path = None ->
  classify_file sys path (checksums st) = Unreadable /\
  check_file sys path st options = (0, st) /\
  (forall (recurse : string -> State -> result (Z * State))
          (root : string) (realp : option string) (d_name : string)
          (rest : list string) (cnt : Z),
      streq d_name "." || streq d_name ".." = false ->
      entry_path sys root realp d_name = Done path ->
      is_directory sys path = false ->
      int_range cnt ->
      check_entries sys recurse root realp options (d_name :: rest) cnt st =
      check_entries sys recurse root realp options rest cnt st) /\
  (forall (recurse : string -> State -> result (Z * State))
          (root : string) (realp : option string) (d_name sib sib_path : string)
          (rest : list string) (cnt : Z),
      streq d_name "." || streq d_name ".." = false ->
      entry_path sys root realp d_name = Done path ->
      is_directory sys path = false ->
      streq sib "." || streq sib ".." = false ->
      entry_path sys root realp sib = Done sib_path ->
      is_directory sys sib_path = false ->
      int_range cnt ->
      check_entries sys recurse root realp options (d_name :: sib :: rest) cnt st =
      check_entries sys recurse root realp options rest
        (count_add cnt (fst (check_file sys sib_path st options)))
        (snd (check_file sys sib_path st options)) /\
      check_entries sys recurse root realp options (sib :: d_name :: rest) cnt st =
      check_entries sys recurse root realp options rest
        (count_add cnt (fst (check_file sys sib_path st options)))
        (snd (check_file sys sib_path st options))) /\
  (forall (fuel : nat) (root d_name sib sib_path : string),
      opendir sys root = inl ["."; ".."; d_name; sib] ->
      streq d_name "." || streq d_name ".." = false ->
      entry_path sys root (realpath sys root) d_name = Done path ->
      is_directory sys path = false ->
      streq sib "." || streq sib ".." = false ->
      entry_path sys root (realpath sys root) sib = Done sib_path ->
      is_directory sys sib_path = false ->
      check_directory sys (S fuel) root st options =
      Done (to_size_t (count_add 0 (fst (check_file sys sib_path st options))),
            snd (check_file sys sib_path st options))).
Proof.
  intros Hh.
  assert (forall s, check_file sys path s options = (0, s)) as Hf
    by (intros s; unfold check_file; now rewrite Hh).
  assert (forall recurse root realp d_name rest cnt s,
             streq d_name "." || streq d_name ".." = false ->
             entry_path sys root realp d_name = Done path ->
             is_directory sys path = false ->
             int_range cnt ->
             check_entries sys recurse root realp options (d_name :: rest) cnt s =
             check_entries sys recurse root realp options rest cnt s) as Hskip.
  { intros recurse root realp d_name rest cnt s Hdots Hpath Hdir Hcnt.
    simpl. unfold check_entry. rewrite Hdots, Hpath, Hdir, Hf.
    now rewrite count_add_0. }
  assert (forall recurse root realp sib sib_path rest cnt s,
             streq sib "." || streq sib ".." = false ->
             entry_path sys root realp sib = Done sib_path ->
             is_directory sys sib_path = false ->
             check_entries sys recurse root realp options (sib :: rest) cnt s =
             check_entries sys recurse root realp options rest
               (count_add cnt (fst (check_file sys sib_path s options)))
               (snd (check_file sys sib_path s options))) as Hsib.
  { intros recurse root realp sib sib_path rest cnt s Hdots Hpath Hdir.
    simpl. unfold check_entry. rewrite Hdots, Hpath, Hdir.
    now destruct (check_file sys sib_path s options). }
  split; [unfold classify_file; now rewrite Hh |]. split; [apply Hf |].
  split; [|split].
  - intros recurse root realp d_name rest cnt. apply Hskip.
  - intros recurse root realp d_name sib sib_path rest cnt
      Hdots Hpath Hdir Hsdots Hspath Hsdir Hcnt. split.
    + rewrite Hskip by assumption. now apply Hsib.
    + rewrite (Hsib _ _ _ _ sib_path) by assumption.
      apply Hskip; auto. apply to_int_range.
  - intros fuel root d_name sib sib_path Hopen
      Hdots Hpath Hdir Hsdots Hspath Hsdir.
    simpl check_directory. rewrite Hopen.
    assert (forall recurse cnt s,
               check_entries sys recurse root (realpath sys root) options
                 ["."; ".."; d_name; sib] cnt s =
               check_entries sys recurse root (realpath sys root) options
                 [d_name; sib] cnt s) as Hpseudo by reflexivity.
    rewrite Hpseudo, Hskip by (auto; unfold int_range; lia).
    rewrite (Hsib _ _ _ _ sib_path) by assumption.
    reflexivity.
Qed.

Example hash_from_file_sample :
  hash_from_file sample_system "sub/e" = Some "68656c6c6f0000000000000000000000".
Proof. reflexivity. Qed.

Lemma unreadable_file_skipped_witness :
  hash_from_file sample_system "sub/locked" = None /\
  classify_file sample_system "sub/locked" (checksums sample_state) = Unreadable /\
  check_file sample_system "sub/locked" sample_state sample_options
    = (0, sample_state) /\
  check_entries sample_system (fun _ _ => OutOfFuel) "sub" (Some "/w/sub")
    sample_options ["locked"; "e"] 0 sample_state =
  check_entries sample_system (fun _ _ => OutOfFuel) "sub" (Some "/w/sub")
    sample_options [] 0
    (mkState
       (table_insert (checksums sample_state)
          "68656c6c6f0000000000000000000000" (VString "sub/e") STRING)
       "" "").
Proof.
  assert (hash_from_file sample_system "sub/locked" = None) as Hh by reflexivity.
  split; [exact Hh |].
  destruct (unreadable_file_skipped sample_system "sub/locked" sample_state
              sample_options Hh) as (Hc & Hf & _ & Hsib & _).
  split; [exact Hc |]. split; [exact Hf |].
  exact (proj1 (Hsib (fun _ _ => OutOfFuel) "sub" (Some "/w/sub")
                  "locked" "e" "sub/e" [] 0
                  eq_refl eq_refl eq_refl eq_refl eq_refl eq_refl
                  ltac:(unfold int_range; lia))).
Defined.

(** ** Where the code and the spec's scan agree *)

Lemma check_entry_scan_entry (sys : System)
    (rec1 rec2 : string -> State -> result (Z * State))
    (root : string) (realp : option string) (options : Options)
    (d_name : string) (cnt : Z) (st : State) :
  (forall r s, rec1 r s = rec2 r s) ->
  (streq d_name "." || streq d_name ".." = false ->
   is_directory sys d_name = false) ->
  check_entry sys rec1 root realp options d_name cnt st =
  scan_entry sys rec2 root options d_name cnt st.
Proof.
  intros Hrec Hbare. unfold check_entry, scan_entry, entry_path.
  destruct (streq d_name "." || streq d_name "..") eqn:E; [reflexivity |].
  rewrite (Hbare eq_refl), Hrec. reflexivity.
Qed.

Lemma check_entries_scan_entries (sys : System)
    (rec1 rec2 : string -> State -> result (Z * State))
    (root : string) (realp : option string) (options : Options)
    (names : list string) (cnt : Z) (st : State) :
  (forall r s, rec1 r s = rec2 r s) ->
  (forall d : string,
      d ∈ names -> streq d "." || streq d ".." = false ->
      is_directory sys d = false) ->
  check_entries sys rec1 root realp options names cnt st =
  scan_entries sys rec2 root options names cnt st.
Proof.
  intros Hrec. revert cnt st.
  induction names as [|d names IH]; intros cnt st Hbare; simpl; [reflexivity |].
  rewrite (check_entry_scan_entry sys rec1 rec2) by
    (auto; apply Hbare, list_elem_of_here).
  destruct (scan_entry sys rec2 root options d cnt st) as [[c s]| |];
    try reflexivity.
  apply IH. intros d' Hd'. apply Hbare. now apply list_elem_of_further.
Qed.

(** As long as no entry name, taken by itself, is a directory of the working
    directory, [check_directory] is the scan the spec describes. *)
Lemma check_directory_scan_directory (sys : System) (fuel : nat) (root : string)
    (st : State) (options : Options) :
  (forall (r : string) (names : list string) (d : string),
      opendir sys r = inl names -> d ∈ names ->
      streq d "." || streq d ".." = false -> is_directory sys d = false) ->
  check_directory sys fuel root st options = scan_directory sys fuel root st options.
Proof.
  intros Hbare. revert root st.
  induction fuel as [|fuel IH]; intros root st; simpl; [reflexivity |].
  destruct (opendir sys root) as [names | msg] eqn:E; [|reflexivity].
  rewrite (check_entries_scan_entries sys _
             (fun r s => scan_directory sys fuel r s options)).
  - reflexivity.
  - intros r s. apply IH.
  - intros d Hd. now apply (Hbare root names).
Qed.

(** ** The path under which an entry is visited *)

(** C1 fails on the code.  Scanning [sub] from [/w]: the entry [d] of [sub]
    is a regular file, but the bare name [d] is a directory of the working
    directory, so the code visits the file as [/w/sub/d], not as [sub/d],
    the parent path joined with the entry name; the duplicate line printed
    for [sub/e] shows it. *)
Theorem check_directory_bare_name_slip :
  entry_path sample_system "sub" (realpath sample_system "sub") "d"
    = Done "/w/sub/d" /\
  join_path "sub" "d" = "sub/d" /\
  (exists st : State,
      check_directory sample_system 2 "sub" sample_state sample_options
        = Done (1, st) /\
      out st = "sub/e is a duplicate of /w/sub/d" +:+ NEWLINE) /\
  (exists st : State,
      scan_directory sample_system 2 "sub" sample_state sample_options
        = Done (1, st) /\
      out st = "sub/e is a duplicate of sub/d" +:+ NEWLINE) /\
  check_directory sample_system 2 "sub" sample_state sample_options <>
  scan_directory sample_system 2 "sub" sample_state sample_options.
Proof.
  split; [reflexivity |]. split; [reflexivity |].
  split; [eexists; split; vm_compute; reflexivity |].
  split; [eexists; split; vm_compute; reflexivity |].
  vm_compute. discriminate.
Qed.

End DuplicatesTheory.

(** * Further properties of the hash table *)

Module TableLaws.
Import Hash Pair Table TableSpec TableTheory.

(** ** Keys and the chain of their bucket *)

Lemma present_in_bucket (t : Table) (K : string) :
  placed t -> K ∈ table_keys t ->
  K ∈ (Pair.key <$> chain_at t (bucket_of t K)).
Proof.
  intros Hp Hin. unfold table_keys in Hin.
  apply list_elem_of_fmap in Hin. destruct Hin as (q & -> & Hq).
  apply entries_chain_at in Hq. destruct Hq as (b & Hb & Hq).
  pose proof (placed_chain_at t b q Hp Hq) as Hbk. subst b.
  now apply list_elem_of_fmap_2.
Qed.

Lemma in_bucket_present (t : Table) (K : string) (b : nat) :
  K ∈ (Pair.key <$> chain_at t b) -> K ∈ table_keys t.
Proof.
  intros Hin. apply list_elem_of_fmap in Hin. destruct Hin as (p & -> & Hp).
  apply list_elem_of_fmap_2. eapply chain_at_entries; eauto.
Qed.

(** ** Searching *)

Lemma search_loop_Some (chain : list Pair) (k : string) (v : Value) :
  table_search_loop chain k = Some v ->
  exists p : Pair, p ∈ chain /\ Pair.key p = k /\ value p = v.
Proof.
  induction chain as [|q chain IH]; simpl; [discriminate |].
  destruct (String.eqb (Pair.key q) k) eqn:E.
  - apply eqb_key_true in E. intros H; inversion H; subst.
    exists q. split; [apply list_elem_of_here | auto].
  - intros H. destruct (IH H) as (p & Hp & Hk & Hv).
    exists p. split; [now apply list_elem_of_further | auto].
Qed.

Lemma search_loop_member (chain : list Pair) (p : Pair) :
  NoDup (Pair.key <$> chain) -> p ∈ chain ->
  table_search_loop chain (Pair.key p) = Some (value p).
Proof.
  induction chain as [|q chain IH]; intros Hn Hin.
  - now apply not_elem_of_nil in Hin.
  - rewrite fmap_cons in Hn. apply NoDup_cons in Hn. destruct Hn as [Hq Hn].
    simpl. apply elem_of_cons in Hin. destruct Hin as [-> | Hin].
    + now rewrite String.eqb_refl.
    + destruct (String.eqb (Pair.key q) (Pair.key p)) eqn:E.
      * apply eqb_key_true in E. exfalso. apply Hq. rewrite E.
        now apply list_elem_of_fmap_2.
      * now apply IH.
Qed.

(** X1: what [table_search] finds.  In a table that keeps its invariant,
    [table_search] of [K] yields [v] exactly when some entry of some chain
    has key [K] and value [v]: no stored entry is out of reach of a search,
    and a search invents nothing. *)
Theorem search_finds_entries (t : Table) (K : string) (v : Value) :
  table_inv t ->
  (table_search t K = Some v <->
   exists p : Pair, p ∈ entries t /\ Pair.key p = K /\ value p = v).
Proof.
  intros (Hwf & Hp & Hn & _). split.
  - unfold table_search. intros H.
    destruct (search_loop_Some _ _ _ H) as (p & Hin & Hk & Hv).
    exists p. split; [eapply chain_at_entries; eauto | auto].
  - intros (p & Hin & <- & <-).
    apply entries_chain_at in Hin. destruct Hin as (b & Hb & Hin).
    pose proof (placed_chain_at t b p Hp Hin) as Hbk. subst b.
    unfold table_search. apply search_loop_member; [|assumption].
    now apply chains_nodup_chain_at.
Qed.

(** ** Removing *)

Lemma remove_loop_gone (chain chain' : list Pair) (k : string) :
  NoDup (Pair.key <$> chain) ->
  table_remove_loop chain k = Some chain' -> k ∉ (Pair.key <$> chain').
Proof.
  revert chain'. induction chain as [|p chain IH]; intros chain' Hn H; simpl in H.
  - discriminate.
  - rewrite fmap_cons in Hn. apply NoDup_cons in Hn. destruct Hn as [Hp Hn].
    destruct (String.eqb (Pair.key p) k) eqn:E.
    + apply eqb_key_true in E. inversion H; subst. exact Hp.
    + apply eqb_key_false in E.
      destruct (table_remove_loop chain k) as [c|]; simpl in H; [|discriminate].
      inversion H; subst. rewrite fmap_cons, not_elem_of_cons.
      split; [congruence | now apply IH].
Qed.

Lemma remove_loop_search_ne (chain chain' : list Pair) (k k' : string) :
  k' <> k ->
  table_remove_loop chain k = Some chain' ->
  table_search_loop chain' k' = table_search_loop chain k'.
Proof.
  intros Hne. revert chain'.
  induction chain as [|p chain IH]; simpl; intros chain' H.
  - discriminate.
  - destruct (String.eqb (Pair.key p) k) eqn:E.
    + apply eqb_key_true in E. inversion H; subst.
      assert (String.eqb (Pair.key p) k' = false) as ->
        by (apply eqb_key_false; congruence).
      reflexivity.
    + destruct (table_remove_loop chain k) as [c|]; simpl in H; [|discriminate].
      inversion H; subst. simpl. now rewrite (IH c eq_refl).
Qed.

Lemma chain_at_remove_eq (t : Table) (k : string) :
  table_wf t ->
  chain_at (fst (table_remove t k)) (bucket_of t k) =
  match table_remove_loop (chain_at t (bucket_of t k)) k with
  | Some chain => chain
  | None => chain_at t (bucket_of t k)
  end.
Proof.
  intros Hwf. pose proof (bucket_of_lt t k Hwf) as Hlt.
  unfold table_remove. destruct (table_remove_loop _ _); simpl; [|reflexivity].
  apply (chain_at_set_chain_eq t); assumption.
Qed.

Lemma search_remove_ne (t : Table) (k k' : string) :
  table_wf t -> k' <> k ->
  table_search (fst (table_remove t k)) k' = table_search t k'.
Proof.
  intros Hwf Hne. unfold table_search.
  rewrite (bucket_of_capacity t) by apply capacity_remove.
  destruct (Nat.eq_dec (bucket_of t k') (bucket_of t k)) as [E|E].
  - rewrite E, chain_at_remove_eq by assumption.
    destruct (table_remove_loop _ _) eqn:L; [|reflexivity].
    eapply remove_loop_search_ne; eauto.
  - now rewrite chain_at_remove_ne.
Qed.

(** X2: removing a key that is present.  In a table that keeps its
    invariant, [table_remove] of a stored key returns true; afterwards the
    key is in no chain and a search for it finds nothing, the search for
    every other key gives what it gave before, there is one entry less, the
    size went down by one, and the invariant still holds. *)
Theorem remove_present (t : Table) (K : string) :
  table_inv t -> K ∈ table_keys t ->
  exists t' : Table,
    table_remove t K = (t', true) /\
    table_inv t' /\
    (K ∉ table_keys t') /\
    table_search t' K = None /\
    (forall K' : string, K' <> K -> table_search t' K' = table_search t K') /\
    S (length (entries t')) = length (entries t) /\
    size t' = to_size_t (size t - 1) /\
    capacity t' = capacity t.
Proof.
  intros Hinv Hin. pose proof Hinv as (Hwf & Hp & Hn & Hs).
  pose proof (present_in_bucket t K Hp Hin) as Hb.
  pose proof (table_inv_remove t K Hinv) as Hinv'.
  pose proof (chain_at_remove_eq t K Hwf) as Hc.
  pose proof (length_entries_remove t K Hwf) as Hl.
  pose proof (capacity_remove t K) as Hcap.
  pose proof (search_remove_ne t K) as Hne.
  destruct (table_remove_loop (chain_at t (bucket_of t K)) K) as [c|] eqn:L;
    [|apply remove_loop_None in L; contradiction].
  assert (K ∉ (Pair.key <$> c)) as Hgone
    by (eapply remove_loop_gone; eauto using chains_nodup_chain_at).
  assert (exists t', table_remove t K = (t', true)) as [t' Ht'].
  { unfold table_remove. rewrite L. eauto. }
  rewrite Ht' in *. simpl in *.
  assert (K ∉ (Pair.key <$> chain_at t' (bucket_of t' K))) as Hgone'.
  { rewrite (bucket_of_capacity t t') by assumption. now rewrite Hc. }
  exists t'. repeat split; try apply Hinv'; auto.
  - intros Hin'. apply Hgone'. apply present_in_bucket; [apply Hinv' | assumption].
  - unfold table_search. now apply search_loop_None.
  - unfold table_remove in Ht'. rewrite L in Ht'. now inversion Ht'.
Qed.

(** X3: insertion undone by removal.  Inserting a key that is in no chain
    and removing it again gives back the very table one started from:
    every bucket, every chain in its order, and the size. *)
Theorem insert_remove_restores (t : Table) (K : string) (V : Value)
    (ty : ValueType) :
  table_wf t -> K ∉ table_keys t -> 0 <= size t < UINT64_MOD ->
  table_remove (table_insert t K V ty) K = (t, true).
Proof.
  intros Hwf Habs Hsize. pose proof (bucket_of_lt t K Hwf) as Hlt.
  assert (K ∉ (Pair.key <$> chain_at t (bucket_of t K))) as Hc
    by (intros Hin; apply Habs; eapply in_bucket_present; eauto).
  apply (insert_loop_None _ _ V ty) in Hc.
  unfold table_remove.
  rewrite (bucket_of_capacity t) by apply capacity_insert.
  rewrite chain_at_insert_eq by assumption. rewrite Hc.
  unfold pair_create. simpl. rewrite String.eqb_refl.
  unfold table_insert. rewrite Hc. unfold set_chain, pair_create. simpl.
  rewrite list_insert_insert_eq.
  rewrite list_insert_id by now apply lookup_chain_at.
  destruct t as [bs cap sz]. simpl in *. f_equal. f_equal.
  unfold to_size_t, UINT64_MOD in *.
  rewrite Zminus_mod_idemp_l. replace (sz + 1 - 1) with sz by lia.
  apply Z.mod_small. lia.
Qed.

(** ** Bucket indices *)

(** X4: no bucket index is out of range.  On a table made by
    [table_create] (with a non-zero capacity, or with a positive default)
    and then used for any sequence of operations, the index computed for
    any key is smaller than the number of buckets, which is still the
    capacity chosen at creation. *)
Theorem bucket_index_in_range (DEFAULT_CAPACITY c : Z) (ops : list Op)
    (key : string) :
  0 <= c -> 0 < DEFAULT_CAPACITY ->
  let t := table_run (table_create DEFAULT_CAPACITY c) ops in
  (bucket_of t key < length (buckets t))%nat /\
  length (buckets t) = Z.to_nat (if c =? 0 then DEFAULT_CAPACITY else c).
Proof.
  intros Hc Hd t.
  pose proof (table_inv_run _ ops (table_inv_create DEFAULT_CAPACITY Hd c Hc))
    as (Hwf & _).
  fold t in Hwf. split; [now apply bucket_of_lt |].
  destruct Hwf as [_ Hl]. rewrite Hl. unfold t. now rewrite capacity_run.
Qed.

(** ** On the sample table *)

Lemma search_finds_entries_witness :
  table_inv sample_table /\
  (table_search sample_table "a" = Some (VString "first") <->
   exists p : Pair,
     p ∈ entries sample_table /\ Pair.key p = "a" /\ value p = VString "first").
Proof.
  split; [exact sample_table_inv |].
  exact (search_finds_entries sample_table "a" (VString "first") sample_table_inv).
Defined.

Lemma remove_present_witness :
  table_inv sample_table /\ ("a" ∈ table_keys sample_table) /\
  exists t' : Table,
    table_remove sample_table "a" = (t', true) /\
    table_search t' "a" = None /\
    S (length (entries t')) = length (entries sample_table).
Proof.
  assert ("a" ∈ table_keys sample_table) as Hin
    by (apply list_elem_of_In; vm_compute; auto).
  split; [exact sample_table_inv |]. split; [exact Hin |].
  destruct (remove_present sample_table "a" sample_table_inv Hin)
    as (t' & H1 & _ & _ & H2 & _ & H3 & _).
  exists t'. auto.
Defined.

Lemma insert_remove_restores_witness :
  table_wf sample_table /\ ("c" ∉ table_keys sample_table) /\
  0 <= size sample_table < UINT64_MOD /\
  table_remove (table_insert sample_table "c" (VNumber 3) NUMBER) "c"
    = (sample_table, true).
Proof.
  assert (table_wf sample_table) as Hwf by (split; reflexivity).
  assert ("c" ∉ table_keys sample_table) as Habs.
  { vm_compute. intros H. inversion H as [|? ? ? H1]; subst.
    inversion H1 as [|? ? ? H2]; subst. inversion H2. }
  assert (0 <= size sample_table < UINT64_MOD) as Hs
    by (split; vm_compute; [discriminate | reflexivity]).
  split; [exact Hwf |]. split; [exact Habs |]. split; [exact Hs |].
  exact (insert_remove_restores sample_table "c" (VNumber 3) NUMBER Hwf Habs Hs).
Defined.

Lemma bucket_index_in_range_witness :
  let ops := [OpInsert "a" (VString "first") STRING; OpRemove "a"] in
  let t := table_run (table_create 16 0) ops in
  0 <= 0 /\ 0 < 16 /\
  (bucket_of t "zebra" < length (buckets t))%nat /\
  length (buckets t) = Z.to_nat 16.
Proof.
  intros ops t.
  assert (0 <= 0) as Hc by lia. assert (0 < 16) as Hd by lia.
  split; [exact Hc |]. split; [exact Hd |].
  exact (bucket_index_in_range 16 0 ops "zebra" Hc Hd).
Defined.

End TableLaws.

(** * Properties of the checksums *)

Module HashLaws.
Import Hash HashSpec TableTheory ScanSpec.

(** ** Reading a file in chunks *)



(** ** The hexadecimal rendering *)

Lemma string_forallb_app (P : ascii -> bool) (a b : string) :
  string_forallb P (a +:+ b) = string_forallb P a && string_forallb P b.
Proof.
  induction a as [|x a IH]; [reflexivity |].
  rewrite append_cons. simpl. now rewrite IH, andb_assoc.
Qed.

Lemma length_append (a b : string) :
  String.length (a +:+ b) = (String.length a + String.length b)%nat.
Proof.
  induction a as [|x a IH]; [reflexivity |].
  rewrite append_cons. simpl. now rewrite IH.
Qed.

Lemma hex_byte_chars (byte : ascii) :
  string_forallb is_hex_char (hex_byte byte) = true.
Proof. destruct byte as [[] [] [] [] [] [] [] []]; reflexivity. Qed.

Lemma hex_loop_shape (out : list ascii) :
  String.length (hex_loop out) = (2 * length out)%nat /\
  string_forallb is_hex_char (hex_loop out) = true.
Proof.
  induction out as [|byte out [IHl IHc]]; [split; reflexivity |].
  simpl hex_loop. split.
  - rewrite length_append, IHl. simpl. lia.
  - now rewrite string_forallb_app, hex_byte_chars, IHc.
Qed.

(** X6: the shape of a checksum.  When [MD5_Final] delivers its sixteen
    bytes, every checksum [hash_from_file] returns is a string of exactly 32
    characters, each one of [0-9a-f]. *)
Theorem hash_from_file_shape (sys : System) (path hex : string) :
  (forall c : MD5_CTX sys, length (MD5_Final sys c) = MD5_DIGEST_LENGTH) ->
  hash_from_file sys path = Some hex ->
  String.length hex = 32%nat /\ string_forallb is_hex_char hex = true.
Proof.
  intros Hlen. unfold hash_from_file.
  destruct (fopen sys path) as [file|]; [|discriminate].
  set (c := hash_read_loop sys (S (length file)) (MD5_Init sys) file).
  intros [= <-].
  destruct (hex_loop_shape (take MD5_DIGEST_LENGTH (MD5_Final sys c)))
    as [Hl Hc].
  split; [|exact Hc].
  rewrite Hl, length_take, Hlen. reflexivity.
Qed.

Lemma unhex_hex_byte (byte : ascii) (rest : string) :
  unhex (hex_byte byte +:+ rest) = byte :: unhex rest.
Proof. destruct byte as [[] [] [] [] [] [] [] []]; reflexivity. Qed.

(** X7: the rendering loses nothing.  Reading the hexadecimal rendering of
    any bytes back gives these bytes, so two byte sequences have the same
    rendering only if they are the same: the table never takes two
    different digests for one key. *)
Theorem hex_loop_round_trip (out : list ascii) :
  unhex (hex_loop out) = out /\
  forall out' : list ascii, hex_loop out = hex_loop out' -> out = out'.
Proof.
  assert (forall l, unhex (hex_loop l) = l) as Hrt.
  { induction l as [|byte l IH]; [reflexivity |].
    simpl hex_loop. now rewrite unhex_hex_byte, IH. }
  split; [apply Hrt |].
  intros out' H. rewrite <- (Hrt out), <- (Hrt out'). now rewrite H.
Qed.



Lemma hash_from_file_shape_witness :
  (forall c : MD5_CTX sample_system,
      length (MD5_Final sample_system c) = MD5_DIGEST_LENGTH) /\
  hash_from_file sample_system "sub/e"
    = Some "68656c6c6f0000000000000000000000" /\
  String.length "68656c6c6f0000000000000000000000" = 32%nat /\
  string_forallb is_hex_char "68656c6c6f0000000000000000000000" = true.
Proof.
  assert (forall c : MD5_CTX sample_system,
             length (MD5_Final sample_system c) = MD5_DIGEST_LENGTH) as Hlen.
  { intros c. simpl. unfold sample_digest.
    rewrite length_take, length_app, length_replicate.
    unfold MD5_DIGEST_LENGTH. lia. }
  assert (hash_from_file sample_system "sub/e"
          = Some "68656c6c6f0000000000000000000000") as Hh by reflexivity.
  split; [exact Hlen |]. split; [exact Hh |].
  exact (hash_from_file_shape sample_system "sub/e" _ Hlen Hh).
Defined.

End HashLaws.

(** * Further properties of the scanner *)

Module ScanLaws.
Import Hash Pair Table Duplicates TableSpec ScanSpec TableTheory DuplicatesTheory.

(** ** Two files with one checksum *)

(** X8: the second file with a checksum is a duplicate.  Once [check_file]
    has seen a readable file, the table has an entry for its checksum (the
    file's own path if the checksum was new); [check_file] of any file with
    the same checksum then returns 1, leaves the table as it is and, when
    neither option is set, reports the path stored first. *)
Theorem same_checksum_is_duplicate (sys : System) (p q hex : string)
    (st : State) (o1 o2 : Options) :
  table_wf (checksums st) ->
  hash_from_file sys p = Some hex ->
  hash_from_file sys q = Some hex ->
  let st1 := snd (check_file sys p st o1) in
  let r := check_file sys q st1 o2 in
  exists v : Value,
    table_search (checksums st1) hex = Some v /\
    (table_search (checksums st) hex = None -> v = VString p) /\
    fst r = 1 /\
    checksums (snd r) = checksums st1 /\
    (count o2 = false -> quiet o2 = false ->
     out (snd r) = out st1 +:+ duplicate_line q (value_string v)).
Proof.
  intros Hwf Hp Hq st1 r.
  assert (exists v, table_search (checksums st1) hex = Some v /\
                    (table_search (checksums st) hex = None -> v = VString p))
    as (v & Hv & Hnew).
  { subst st1. unfold check_file. rewrite Hp.
    destruct (table_search (checksums st) hex) as [v|] eqn:E.
    - exists v. split; [|discriminate].
      destruct (negb (count o1) && negb (quiet o1)); [exact E |].
      destruct (quiet o1 || count o1); exact E.
    - exists (VString p). split; [|reflexivity]. simpl.
      now rewrite search_insert_eq. }
  exists v. split; [exact Hv |]. split; [exact Hnew |].
  subst r. unfold check_file. rewrite Hq, Hv.
  destruct o2 as [[|] [|]]; simpl; repeat split; auto; discriminate.
Qed.

Lemma same_checksum_is_duplicate_witness :
  table_wf (checksums sample_state) /\
  hash_from_file sample_system "sub/d" = Some "68656c6c6f0000000000000000000000" /\
  hash_from_file sample_system "sub/e" = Some "68656c6c6f0000000000000000000000" /\
  exists v : Value,
    table_search
      (checksums (snd (check_file sample_system "sub/d" sample_state sample_options)))
      "68656c6c6f0000000000000000000000" = Some v /\
    fst (check_file sample_system "sub/e"
           (snd (check_file sample_system "sub/d" sample_state sample_options))
           sample_options) = 1.
Proof.
  assert (table_wf (checksums sample_state)) as Hwf by (split; reflexivity).
  assert (hash_from_file sample_system "sub/d"
          = Some "68656c6c6f0000000000000000000000") as Hp by reflexivity.
  assert (hash_from_file sample_system "sub/e"
          = Some "68656c6c6f0000000000000000000000") as Hq by reflexivity.
  split; [exact Hwf |]. split; [exact Hp |]. split; [exact Hq |].
  destruct (same_checksum_is_duplicate sample_system "sub/d" "sub/e" _
              sample_state sample_options sample_options Hwf Hp Hq)
    as (v & Hv & _ & Hn & _).
  exists v. split; [exact Hv | exact Hn].
Defined.

(** ** Every readable file is accounted for *)

(** X17: counted or stored, never both, never neither.  For a file whose
    checksum can be computed, [check_file] either finds the checksum in the
    table, returns 1 and leaves the table alone, or does not find it,
    returns 0, prints nothing and adds exactly one entry, which maps the
    checksum to the path of the file. *)
Theorem readable_file_counted_or_stored (sys : System) (path hex : string)
    (st : State) (options : Options) :
  table_wf (checksums st) ->
  hash_from_file sys path = Some hex ->
  let r := check_file sys path st options in
  (fst r = 1 /\ checksums (snd r) = checksums st /\
   table_search (checksums st) hex <> None) \/
  (fst r = 0 /\ table_search (checksums st) hex = None /\
   table_search (checksums (snd r)) hex = Some (VString path) /\
   length (entries (checksums (snd r))) = S (length (entries (checksums st))) /\
   out (snd r) = out st).
Proof.
  intros Hwf Hh r. subst r. unfold check_file. rewrite Hh.
  destruct (table_search (checksums st) hex) as [v|] eqn:E.
  - left. destruct options as [[|] [|]]; simpl; repeat split; auto; discriminate.
  - right. simpl. split; [reflexivity |]. split; [reflexivity |].
    split; [now rewrite search_insert_eq |]. split; [|reflexivity].
    rewrite length_entries_insert by assumption.
    unfold table_search in E. apply search_loop_None in E.
    apply (insert_loop_None _ _ (VString path) STRING) in E. now rewrite E.
Qed.

Lemma readable_file_counted_or_stored_witness :
  table_wf (checksums sample_state) /\
  hash_from_file sample_system "sub/e" = Some "68656c6c6f0000000000000000000000" /\
  (let r := check_file sample_system "sub/e" sample_state sample_options in
   (fst r = 1 /\ checksums (snd r) = checksums sample_state /\
    table_search (checksums sample_state) "68656c6c6f0000000000000000000000"
      <> None) \/
   (fst r = 0 /\
    table_search (checksums sample_state) "68656c6c6f0000000000000000000000"
      = None /\
    table_search (checksums (snd r)) "68656c6c6f0000000000000000000000"
      = Some (VString "sub/e") /\
    length (entries (checksums (snd r)))
      = S (length (entries (checksums sample_state))) /\
    out (snd r) = out sample_state)).
Proof.
  assert (table_wf (checksums sample_state)) as Hwf by (split; reflexivity).
  assert (hash_from_file sample_system "sub/e"
          = Some "68656c6c6f0000000000000000000000") as Hh by reflexivity.
  split; [exact Hwf |]. split; [exact Hh |].
  exact (readable_file_counted_or_stored sample_system "sub/e" _ sample_state
           sample_options Hwf Hh).
Defined.

(** ** Relations every step of a scan respects *)

Section ScanRelation.

Variable sys : System.
Variable options : Options.
Variable R : State -> State -> Prop.
Hypothesis R_refl : forall st, R st st.
Hypothesis R_trans : forall a b c, R a b -> R b c -> R a c.
Hypothesis R_file :
  forall path st, R st (snd (check_file sys path st options)).
Hypothesis R_err :
  forall st msg, R st (mkState (checksums st) (out st) (err st +:+ msg)).

Lemma check_entries_rel (recurse : string -> State -> result (Z * State))
    (root : string) (realp : option string) (names : list string)
    (cnt n : Z) (st st' : State) :
  (forall r s m s', recurse r s = Done (m, s') -> R s s') ->
  check_entries sys recurse root realp options names cnt st = Done (n, st') ->
  R st st'.
Proof.
  intros Hrec. revert cnt st.
  induction names as [|d names IH]; intros cnt st H; simpl in H.
  - inversion H; subst. apply R_refl.
  - destruct (check_entry sys recurse root realp options d cnt st)
      as [[c s]| |] eqn:E; try discriminate.
    apply (R_trans st s st'); [|eapply IH; eauto].
    unfold check_entry in E.
    destruct (streq d "." || streq d ".."); [inversion E; subst; apply R_refl |].
    destruct (entry_path sys root realp d) as [cp| |]; try discriminate.
    destruct (is_directory sys cp).
    + destruct (recurse cp st) as [[m s']| |] eqn:Er; try discriminate.
      inversion E; subst. eapply Hrec; eauto.
    + pose proof (R_file cp st) as Hf.
      destruct (check_file sys cp st options) as [m s']. simpl in Hf.
      inversion E; subst. exact Hf.
Qed.

Lemma check_directory_rel (fuel : nat) (root : string) (n : Z) (st st' : State) :
  check_directory sys fuel root st options = Done (n, st') -> R st st'.
Proof.
  revert root n st st'.
  induction fuel as [|fuel IH]; intros root n st st' H; simpl in H;
    [discriminate |].
  destruct (opendir sys root) as [names | msg].
  - destruct (check_entries sys _ root (realpath sys root) options names 0 st)
      as [[c s]| |] eqn:E; try discriminate.
    inversion H; subst.
    eapply check_entries_rel; [|exact E].
    intros r s0 m s' Hr. simpl in Hr. exact (IH r m s0 s' Hr).
  - inversion H; subst. apply R_err.
Qed.

Lemma main_loop_rel (fuel : nat) (path : list string) (cnt n : Z)
    (st st' : State) :
  main_loop sys fuel path cnt st options = Done (n, st') -> R st st'.
Proof.
  revert cnt st. induction path as [|p path IH]; intros cnt st H; simpl in H.
  - inversion H; subst. apply R_refl.
  - destruct (is_directory sys p).
    + destruct (check_directory sys fuel p st options) as [[m s]| |] eqn:E;
        try discriminate.
      apply (R_trans st s st'); [eapply check_directory_rel; eauto |].
      eapply IH; eauto.
    + pose proof (R_file p st) as Hf.
      destruct (check_file sys p st options) as [m s]. simpl in Hf.
      apply (R_trans st s st'); [exact Hf | eapply IH; eauto].
Qed.

End ScanRelation.

(** ** What a scan does to the table *)

Lemma check_file_keeps_table (sys : System) (options : Options) (path : string)
    (st : State) :
  table_inv (checksums st) ->
  table_inv (checksums (snd (check_file sys path st options))) /\
  capacity (checksums (snd (check_file sys path st options)))
    = capacity (checksums st) /\
  (forall (k : string) (v : Value),
      table_search (checksums st) k = Some v ->
      table_search (checksums (snd (check_file sys path st options))) k = Some v) /\
  (length (entries (checksums st)) <=
   length (entries (checksums (snd (check_file sys path st options)))))%nat.
Proof.
  intros Hinv. unfold check_file.
  destruct (hash_from_file sys path) as [hex|]; [|simpl; auto].
  destruct (table_search (checksums st) hex) as [v|] eqn:E.
  - destruct (negb (count options) && negb (quiet options)); [simpl; auto |].
    destruct (quiet options || count options); simpl; auto.
  - simpl. split; [now apply table_inv_insert |].
    split; [apply capacity_insert |]. split.
    + intros k v Hk. destruct (String.eqb_spec k hex) as [-> | Hne];
        [congruence |].
      rewrite search_insert_ne; auto. apply Hinv.
    + rewrite length_entries_insert by apply Hinv.
      destruct (table_insert_loop _ _ _ _); lia.
Qed.


(** X10: the silent modes.  With the count option or the quiet option set,
    a scan of a directory that runs to its end writes nothing on standard
    output, however many duplicates it meets. *)
Theorem scan_silent (sys : System) (fuel : nat) (root : string)
    (st st' : State) (options : Options) (n : Z) :
  count options || quiet options = true ->
  check_directory sys fuel root st options = Done (n, st') ->
  out st' = out st.
Proof.
  intros Hopt H.
  set (R := fun a b : State => out b = out a).
  assert (forall a, R a a) as Hrefl by reflexivity.
  assert (forall a b c, R a b -> R b c -> R a c) as Htrans
    by (unfold R; intros a b c Hab Hbc; congruence).
  assert (forall path a, R a (snd (check_file sys path a options))) as Hfile.
  { intros path a. unfold R, check_file.
    destruct (hash_from_file sys path) as [hex|]; [|reflexivity].
    destruct (table_search (checksums a) hex) as [v|]; [|reflexivity].
    destruct options as [[|] [|]]; simpl in *; try reflexivity; discriminate. }
  assert (forall a msg,
             R a (mkState (checksums a) (out a) (err a +:+ msg))) as Herr
    by reflexivity.
  exact (check_directory_rel sys options R Hrefl Htrans Hfile Herr
           fuel root n st st' H).
Qed.

(** ** Directories that cannot be opened *)

(** X11: a subdirectory that cannot be opened.  In the loop of
    [check_directory], an entry that is a directory but fails to open adds
    nothing to the counter and changes nothing but standard error, which
    gains the message naming the path; the remaining entries are then
    processed from there. *)
Theorem unopenable_directory_skipped (sys : System) (fuel : nat)
    (root : string) (realp : option string) (options : Options)
    (d_name path msg : string) (rest : list string) (cnt : Z) (st : State) :
  streq d_name "." || streq d_name ".." = false ->
  entry_path sys root realp d_name = Done path ->
  is_directory sys path = true ->
  opendir sys path = inr msg ->
  int_range cnt ->
  check_entries sys (fun r s => check_directory sys (S fuel) r s options)
    root realp options (d_name :: rest) cnt st =
  check_entries sys (fun r s => check_directory sys (S fuel) r s options)
    root realp options rest cnt
    (mkState (checksums st) (out st)
       (err st +:+ "Unable to open directory on " +:+ path +:+ ": "
          +:+ msg +:+ NEWLINE)).
Proof.
  intros Hdots Hpath Hdir Hopen Hcnt.
  simpl check_entries at 1. unfold check_entry at 1.
  rewrite Hdots, Hpath, Hdir. simpl check_directory at 1. rewrite Hopen.
  now rewrite count_add_0.
Qed.


Lemma scan_silent_witness :
  count (mkOptions true false) || quiet (mkOptions true false) = true /\
  exists (n : Z) (st' : State),
    check_directory sample_system 2 "sub" sample_state (mkOptions true false)
      = Done (n, st') /\
    out st' = out sample_state.
Proof.
  split; [reflexivity |].
  destruct (check_directory sample_system 2 "sub" sample_state
              (mkOptions true false))
    as [[n st']| |] eqn:E; try (vm_compute in E; discriminate E).
  exists n, st'. split; [reflexivity |].
  exact (scan_silent sample_system 2 "sub" sample_state st'
           (mkOptions true false) n eq_refl E).
Defined.

Lemma unopenable_directory_skipped_witness :
  entry_path locked_system "." (Some "/w") "d" = Done "/w/d" /\
  is_directory locked_system "/w/d" = true /\
  opendir locked_system "/w/d" = inr "Permission denied" /\
  check_entries locked_system
    (fun r s => check_directory locked_system 2 r s sample_options)
    "." (Some "/w") sample_options ["d"; "sub"] 0 sample_state =
  check_entries locked_system
    (fun r s => check_directory locked_system 2 r s sample_options)
    "." (Some "/w") sample_options ["sub"] 0
    (mkState (checksums sample_state) (out sample_state)
       (err sample_state +:+ "Unable to open directory on " +:+ "/w/d" +:+ ": "
          +:+ "Permission denied" +:+ NEWLINE)).
Proof.
  split; [reflexivity |]. split; [reflexivity |]. split; [reflexivity |].
  apply (unopenable_directory_skipped locked_system 1 "." (Some "/w")
           sample_options "d" "/w/d" "Permission denied" ["sub"] 0 sample_state);
    [reflexivity | reflexivity | reflexivity | reflexivity
    | unfold int_range; lia].
Defined.

End ScanLaws.

(** * Properties of the command line *)

Module MainLaws.
Import Hash Pair Table Duplicates TableSpec ScanSpec TableTheory
  DuplicatesTheory ScanLaws.

(** ** The option loop *)

(** One round of the loop, with the [switch] on [arg[1]] spelt out. *)
Lemma parse_flags_cons (prog arg : string) (rest : list string) (argind : Z)
    (flags : Options) :
  parse_flags prog (arg :: rest) argind flags =
  if is_flag arg
  then if flag_letter arg "h" then inl (usage prog 0 "" "")
       else if flag_letter arg "c"
            then parse_flags prog rest (argind + 1) (mkOptions true (quiet flags))
       else if flag_letter arg "q"
            then parse_flags prog rest (argind + 1) (mkOptions (count flags) true)
       else parse_flags prog rest (argind + 1) flags
  else inr (argind, flags, arg :: rest).
Proof.
  simpl. destruct (is_flag arg); [|reflexivity].
  unfold flag_letter. destruct (String.get 1 arg) as [c|]; [|reflexivity].
  destruct c as [[] [] [] [] [] [] [] []]; reflexivity.
Qed.

(** X12: how the command line is split.  When the option loop ends without
    the exit through [usage], the arguments are a run of options (longer
    than one character, starting with a dash, none with [h] as second
    character) followed by the paths, whose first is no option; [argind]
    advanced by the number of options; the count flag is set exactly when
    some option has [c] as its second character, the quiet flag exactly
    when some has [q]; later characters of an option and options after the
    first path are never looked at. *)
Theorem parse_flags_splits (prog : string) (args : list string)
    (argind argind' : Z) (flags flags' : Options) (path : list string) :
  parse_flags prog args argind flags = inr (argind', flags', path) ->
  exists opts : list string,
    args = opts ++ path /\
    Forall (fun a => is_flag a = true /\ flag_letter a "h" = false) opts /\
    (forall p rest, path = p :: rest -> is_flag p = false) /\
    argind' = argind + Z.of_nat (length opts) /\
    count flags' = count flags || existsb (fun a => flag_letter a "c") opts /\
    quiet flags' = quiet flags || existsb (fun a => flag_letter a "q") opts.
Proof.
  revert argind flags.
  induction args as [|arg args IH]; intros argind flags H.
  - simpl in H. inversion H; subst. exists []. simpl.
    rewrite !orb_false_r. repeat split; auto; try discriminate. lia.
  - rewrite parse_flags_cons in H.
    destruct (is_flag arg) eqn:Ef.
    + destruct (flag_letter arg "h") eqn:Eh; [discriminate |].
      assert (forall fl,
                 parse_flags prog args (argind + 1) fl = inr (argind', flags', path) ->
                 count fl = count flags || flag_letter arg "c" ->
                 quiet fl = quiet flags || flag_letter arg "q" ->
                 exists opts : list string,
                   arg :: args = opts ++ path /\
                   Forall (fun a => is_flag a = true /\ flag_letter a "h" = false) opts /\
                   (forall p rest, path = p :: rest -> is_flag p = false) /\
                   argind' = argind + Z.of_nat (length opts) /\
                   count flags' = count flags || existsb (fun a => flag_letter a "c") opts /\
                   quiet flags' = quiet flags || existsb (fun a => flag_letter a "q") opts)
        as Hstep.
      { intros fl Hfl Hc Hq.
        destruct (IH _ _ Hfl) as (opts & -> & Hall & Hhead & -> & Hc' & Hq').
        exists (arg :: opts). simpl.
        split; [reflexivity |]. split; [constructor; auto |].
        split; [exact Hhead |]. split; [lia |].
        rewrite Hc', Hq', Hc, Hq, !orb_assoc. auto. }
      destruct (flag_letter arg "c") eqn:Ec.
      * apply (Hstep _ H); simpl;
          [now rewrite orb_true_r | ].
        destruct (flag_letter arg "q") eqn:Eq; [|now rewrite orb_false_r].
        unfold flag_letter in Ec, Eq.
        destruct (String.get 1 arg) as [x|]; [|discriminate].
        apply Ascii.eqb_eq in Ec. subst x. discriminate Eq.
      * destruct (flag_letter arg "q") eqn:Eq.
        -- apply (Hstep _ H); simpl;
             [now rewrite orb_false_r | now rewrite orb_true_r].
        -- apply (Hstep _ H); now rewrite orb_false_r.
    + inversion H; subst. exists []. simpl. rewrite !orb_false_r.
      repeat split; auto; [|lia].
      intros p rest Hp. inversion Hp; subst. exact Ef.
Qed.

Lemma parse_flags_argind (prog : string) (args : list string)
    (argind argind' : Z) (flags flags' : Options) (path : list string) :
  parse_flags prog args argind flags = inr (argind', flags', path) ->
  argind' = argind + Z.of_nat (length args) - Z.of_nat (length path).
Proof.
  intros H. destruct (parse_flags_splits _ _ _ _ _ _ _ H)
    as (opts & -> & _ & _ & -> & _).
  rewrite length_app. lia.
Qed.

(** X13: [-h] wins.  If the arguments start with options and one of them
    has [h] as its second character, [main] writes the usage text on
    standard error, nothing on standard output, and exits with status 0,
    whatever the other options and the paths are, without looking at any
    file. *)
Theorem main_help (DEFAULT_CAPACITY : Z) (sys : System) (fuel : nat)
    (prog : string) (opts : list string) (a : string) (rest : list string) :
  Forall (fun o => is_flag o = true) opts ->
  is_flag a = true -> flag_letter a "h" = true ->
  main DEFAULT_CAPACITY sys fuel (prog :: opts ++ a :: rest)
    = Done (usage prog 0 "" "").
Proof.
  intros Hopts Ha Hh.
  assert (forall argind flags,
             parse_flags prog (opts ++ a :: rest) argind flags
             = inl (usage prog 0 "" "")) as Hparse.
  { induction Hopts as [|o opts Ho _ IH]; intros argind flags.
    - simpl app. now rewrite parse_flags_cons, Ha, Hh.
    - simpl app. rewrite parse_flags_cons, Ho.
      destruct (flag_letter o "h"); [reflexivity |].
      destruct (flag_letter o "c"); [apply IH |].
      destruct (flag_letter o "q"); apply IH. }
  unfold main.
  replace (Z.of_nat (length (prog :: opts ++ a :: rest)) =? 1) with false.
  - now rewrite Hparse.
  - symmetry. apply Z.eqb_neq. simpl length. rewrite length_app. simpl. lia.
Qed.

(** ** The table [main] works on *)

Lemma table_create_nonzero (D argind : Z) :
  0 < argind ->
  table_create D argind = mkTable (replicate (Z.to_nat argind) []) argind 0.
Proof.
  intros H. unfold table_create.
  replace (argind =? 0) with false by (symmetry; apply Z.eqb_neq; lia).
  reflexivity.
Qed.

(** The last lines of [main], from the count and the state its scan ends
    with. *)
Lemma main_from_scan (D : Z) (sys : System) (fuel : nat) (prog : string)
    (args : list string) (argind : Z) (flags : Options) (path : list string) :
  parse_flags prog args 1 (mkOptions false false) = inr (argind, flags, path) ->
  main D sys fuel (prog :: args) =
  match main_scan D sys fuel argind flags path with
  | Done (n, st) =>
      Done (mkExit (if (n =? 0) && quiet flags then 1 else 0)
              (if count flags then out st +:+ pretty n +:+ NEWLINE else out st)
              (err st))
  | OutOfFuel => OutOfFuel
  | Undefined => Undefined
  end.
Proof.
  intros Hp. unfold main.
  destruct (Z.of_nat (length (prog :: args)) =? 1) eqn:E1.
  - apply Z.eqb_eq in E1. destruct args; [|simpl in E1; lia].
    simpl in Hp. inversion Hp; subst. reflexivity.
  - now rewrite Hp.
Qed.

Lemma main_loop_keeps_table (sys : System) (fuel : nat) (path : list string)
    (cnt n : Z) (st st' : State) (flags : Options) :
  table_inv (checksums st) ->
  main_loop sys fuel path cnt st flags = Done (n, st') ->
  table_inv (checksums st') /\
  capacity (checksums st') = capacity (checksums st) /\
  length (buckets (checksums st')) = length (buckets (checksums st)).
Proof.
  intros Hinv H.
  set (R := fun a b : State =>
              table_inv (checksums a) ->
              table_inv (checksums b) /\
              capacity (checksums b) = capacity (checksums a) /\
              length (buckets (checksums b)) = length (buckets (checksums a))).
  assert (forall a, R a a) as Hrefl by (intros a Ha; auto).
  assert (forall a b c, R a b -> R b c -> R a c) as Htrans.
  { intros a b c Hab Hbc Ha.
    destruct (Hab Ha) as (Hb & Hcap & Hl).
    destruct (Hbc Hb) as (Hc & Hcap' & Hl').
    split; [exact Hc |]. split; congruence. }
  assert (forall p a, R a (snd (check_file sys p a flags))) as Hfile.
  { intros p a Ha.
    destruct (check_file_keeps_table sys flags p a Ha) as (H1 & H2 & _).
    split; [exact H1 |]. split; [exact H2 |].
    destruct H1 as ((_ & Hl1) & _). destruct Ha as ((_ & Hl0) & _).
    congruence. }
  assert (forall a msg,
             R a (mkState (checksums a) (out a) (err a +:+ msg))) as Herr
    by (intros a msg Ha; simpl; auto).
  exact (main_loop_rel sys flags R Hrefl Htrans Hfile Herr
           fuel path cnt n st st' H Hinv).
Qed.

(** X14: the table [main] works on.  When the scan of [main] runs to its
    end, the table it created and filled has one bucket plus one per option
    of the command line (a single bucket when there are no options), keeps
    the invariant of the table, and [main] ends with the exit status and
    the output computed from the count and the streams of that scan. *)
Theorem main_table_capacity (D : Z) (sys : System) (fuel : nat) (prog : string)
    (args : list string) (argind : Z) (flags : Options) (path : list string)
    (n : Z) (st : State) :
  parse_flags prog args 1 (mkOptions false false) = inr (argind, flags, path) ->
  main_scan D sys fuel argind flags path = Done (n, st) ->
  capacity (checksums st)
    = 1 + Z.of_nat (length args) - Z.of_nat (length path) /\
  length (buckets (checksums st)) = S (length args - length path) /\
  table_inv (checksums st) /\
  main D sys fuel (prog :: args) =
  Done (mkExit (if (n =? 0) && quiet flags then 1 else 0)
          (if count flags then out st +:+ pretty n +:+ NEWLINE else out st)
          (err st)).
Proof.
  intros Hp Hs.
  pose proof (main_from_scan D sys fuel _ _ _ _ _ Hp) as Hm. rewrite Hs in Hm.
  pose proof (parse_flags_argind _ _ _ _ _ _ _ Hp) as Ha.
  destruct (parse_flags_splits _ _ _ _ _ _ _ Hp) as (opts & -> & _ & _ & Hb & _).
  rewrite length_app in *.
  assert (0 < argind) as Hpos by lia.
  unfold main_scan in Hs.
  assert (table_inv (table_create D argind)) as Hinv.
  { rewrite (table_create_nonzero D argind Hpos).
    rewrite <- (table_create_nonzero 1 argind Hpos).
    apply table_inv_create; lia. }
  destruct (main_loop_keeps_table sys fuel path 0 n
              (mkState (table_create D argind) "" "") st flags Hinv Hs)
    as (H1 & H2 & H3).
  cbn [checksums] in H2, H3.
  rewrite (table_create_nonzero D argind Hpos) in H2, H3.
  cbn [capacity buckets] in H2, H3. rewrite length_replicate in H3.
  split; [lia |]. split; [lia |]. split; [exact H1 | exact Hm].
Qed.

(** X15: [DEFAULT_CAPACITY] has no part in a run of [main]. *)
Theorem main_ignores_default (D1 D2 : Z) (sys : System) (fuel : nat)
    (argv : list string) :
  main D1 sys fuel argv = main D2 sys fuel argv.
Proof.
  unfold main. destruct argv as [|prog args]; [reflexivity |].
  destruct (Z.of_nat (length (prog :: args)) =? 1); [reflexivity |].
  destruct (parse_flags prog args 1 (mkOptions false false))
    as [e | [[argind flags] path]] eqn:E; [reflexivity |].
  pose proof (parse_flags_argind _ _ _ _ _ _ _ E) as Ha.
  destruct (parse_flags_splits _ _ _ _ _ _ _ E) as (opts & -> & _ & _ & Hb & _).
  assert (0 < argind) as Hpos by lia.
  unfold main_scan. now rewrite !(table_create_nonzero _ argind Hpos).
Qed.

(** ** What [main] prints and returns *)

Lemma main_loop_count_range (sys : System) (fuel : nat) (path : list string)
    (cnt n : Z) (st st' : State) (flags : Options) :
  int_range cnt ->
  main_loop sys fuel path cnt st flags = Done (n, st') -> int_range n.
Proof.
  revert cnt st. induction path as [|p path IH]; intros cnt st Hc H; simpl in H.
  - now inversion H; subst.
  - destruct (is_directory sys p).
    + destruct (check_directory sys fuel p st flags) as [[m s]| |];
        try discriminate.
      eapply IH; [|exact H]. apply to_int_range.
    + destruct (check_file sys p st flags) as [m s].
      eapply IH; [|exact H]. apply to_int_range.
Qed.

Lemma main_loop_silent (sys : System) (fuel : nat) (path : list string)
    (cnt n : Z) (st st' : State) (flags : Options) :
  count flags || quiet flags = true ->
  main_loop sys fuel path cnt st flags = Done (n, st') -> out st' = out st.
Proof.
  intros Hopt H.
  set (R := fun a b : State => out b = out a).
  assert (forall a, R a a) as Hrefl by reflexivity.
  assert (forall a b c, R a b -> R b c -> R a c) as Htrans
    by (unfold R; intros a b c Hab Hbc; congruence).
  assert (forall p a, R a (snd (check_file sys p a flags))) as Hfile.
  { intros p a. unfold R, check_file.
    destruct (hash_from_file sys p) as [hex|]; [|reflexivity].
    destruct (table_search (checksums a) hex) as [v|]; [|reflexivity].
    destruct flags as [[|] [|]]; simpl in *; try reflexivity; discriminate. }
  assert (forall a msg,
             R a (mkState (checksums a) (out a) (err a +:+ msg))) as Herr
    by reflexivity.
  exact (main_loop_rel sys flags R Hrefl Htrans Hfile Herr fuel path cnt n st st' H).
Qed.

(** The count of a loop over a single path that is a regular file is what
    [check_file] returns for it. *)
Lemma main_loop_single_file (sys : System) (fuel : nat) (p : string)
    (st : State) (flags : Options) :
  is_directory sys p = false ->
  main_loop sys fuel [p] 0 st flags =
  Done (fst (check_file sys p st flags), snd (check_file sys p st flags)).
Proof.
  intros Hd. simpl. rewrite Hd.
  pose proof (check_file_options_only_print sys p st) as (m & t' & _ & Hm & Hall).
  destruct (Hall flags) as (Hfst & _).
  destruct (check_file sys p st flags) as [k s]. simpl in *. subst k.
  destruct Hm as [-> | ->]; reflexivity.
Qed.

(** X16: the three modes of [main].  Let the scan of [main] end with the
    count [n] of its loop over the paths (an [int]; for a single path that
    is a regular file, what [check_file] returns for it).  With the count
    flag standard output is exactly one line, [n] in decimal; with the
    quiet flag alone standard output is empty; the exit status is 1 exactly
    when the quiet flag is set and [n] is 0, and 0 otherwise, so without
    the quiet flag it is 0 whatever could not be read or opened; standard
    error is the one of the scan. *)
Theorem main_modes (D : Z) (sys : System) (fuel : nat) (prog : string)
    (args : list string) (argind : Z) (flags : Options) (path : list string)
    (n : Z) (st : State) :
  parse_flags prog args 1 (mkOptions false false) = inr (argind, flags, path) ->
  main_scan D sys fuel argind flags path = Done (n, st) ->
  exists e : Exit,
    main D sys fuel (prog :: args) = Done e /\
    int_range n /\
    (forall p : string,
        path = [p] -> is_directory sys p = false ->
        n = fst (check_file sys p
                   (mkState (table_create D argind) "" "") flags)) /\
    (count flags = true -> exit_out e = pretty n +:+ NEWLINE) /\
    (count flags = false -> quiet flags = true -> exit_out e = EmptyString) /\
    (status e = 1 <-> quiet flags = true /\ n = 0) /\
    (status e = 0 \/ status e = 1) /\
    (quiet flags = false -> status e = 0) /\
    exit_err e = err st.
Proof.
  intros Hp Hs.
  pose proof (main_from_scan D sys fuel _ _ _ _ _ Hp) as Hm. rewrite Hs in Hm.
  eexists. split; [exact Hm |]. simpl.
  unfold main_scan in Hs.
  assert (int_range 0) as H0 by (unfold int_range; lia).
  pose proof (main_loop_count_range _ _ _ _ _ _ _ _ H0 Hs) as Hn.
  split; [exact Hn |]. split; [|split; [|split; [|split; [|split; [|split]]]]].
  - intros p -> Hd. rewrite (main_loop_single_file _ _ _ _ _ Hd) in Hs.
    now inversion Hs.
  - intros Hc. rewrite Hc.
    rewrite (main_loop_silent _ _ _ _ _ _ _ _ ltac:(now rewrite Hc) Hs).
    reflexivity.
  - intros Hc Hq. rewrite Hc.
    rewrite (main_loop_silent _ _ _ _ _ _ _ _
               ltac:(now rewrite Hq, orb_true_r) Hs).
    reflexivity.
  - destruct (n =? 0) eqn:En; destruct (quiet flags); simpl;
      [apply Z.eqb_eq in En | apply Z.eqb_eq in En
      | apply Z.eqb_neq in En | apply Z.eqb_neq in En];
      split; try discriminate; try (intros [? ?]; congruence); auto.
  - destruct ((n =? 0) && quiet flags); auto.
  - intros Hq. now rewrite Hq, andb_false_r.
  - reflexivity.
Qed.

(** ** On the sample file system *)

Lemma parse_flags_splits_witness :
  parse_flags "duplicates" ["-c"; "-quiet"; "sub"; "-c"] 1 (mkOptions false false)
    = inr (3, mkOptions true true, ["sub"; "-c"]) /\
  exists opts : list string,
    ["-c"; "-quiet"; "sub"; "-c"] = opts ++ ["sub"; "-c"] /\
    3 = 1 + Z.of_nat (length opts).
Proof.
  assert (parse_flags "duplicates" ["-c"; "-quiet"; "sub"; "-c"] 1
            (mkOptions false false)
          = inr (3, mkOptions true true, ["sub"; "-c"])) as H by reflexivity.
  split; [exact H |].
  destruct (parse_flags_splits _ _ _ _ _ _ _ H) as (opts & H1 & _ & _ & H2 & _).
  exists opts. split; [exact H1 | exact H2].
Defined.

Lemma main_help_witness :
  Forall (fun o => is_flag o = true) ["-c"; "-q"] /\
  is_flag "-help" = true /\ flag_letter "-help" "h" = true /\
  main 16 sample_system 0 ("duplicates" :: ["-c"; "-q"] ++ "-help" :: ["sub"])
    = Done (usage "duplicates" 0 "" "").
Proof.
  assert (Forall (fun o => is_flag o = true) ["-c"; "-q"]) as Ho
    by (repeat constructor).
  split; [exact Ho |]. split; [reflexivity |]. split; [reflexivity |].
  exact (main_help 16 sample_system 0 "duplicates" ["-c"; "-q"] "-help" ["sub"]
           Ho eq_refl eq_refl).
Defined.

Lemma main_table_capacity_witness :
  parse_flags "duplicates" ["-c"; "sub"] 1 (mkOptions false false)
    = inr (2, mkOptions true false, ["sub"]) /\
  exists (n : Z) (st : State),
    main_scan 16 sample_system 2 2 (mkOptions true false) ["sub"] = Done (n, st) /\
    capacity (checksums st) = 1 + Z.of_nat 2 - Z.of_nat 1 /\
    length (buckets (checksums st)) = 2%nat /\
    table_inv (checksums st) /\
    main 16 sample_system 2 ["duplicates"; "-c"; "sub"]
      = Done (mkExit 0 ("1" +:+ NEWLINE) "").
Proof.
  assert (parse_flags "duplicates" ["-c"; "sub"] 1 (mkOptions false false)
          = inr (2, mkOptions true false, ["sub"])) as H by reflexivity.
  split; [exact H |].
  destruct (main_scan 16 sample_system 2 2 (mkOptions true false) ["sub"])
    as [[n st]| |] eqn:E; try (vm_compute in E; discriminate E).
  exists n, st. split; [reflexivity |].
  destruct (main_table_capacity 16 sample_system 2 _ _ _ _ _ n st H E)
    as (H1 & H2 & H3 & H4).
  split; [exact H1 |]. split; [exact H2 |]. split; [exact H3 |].
  rewrite H4. vm_compute in E. inversion E; subst n st. reflexivity.
Defined.

Lemma main_modes_witness :
  parse_flags "duplicates" ["-q"; "sub/e"] 1 (mkOptions false false)
    = inr (2, mkOptions false true, ["sub/e"]) /\
  exists (n : Z) (st : State) (e : Exit),
    main_scan 16 sample_system 2 2 (mkOptions false true) ["sub/e"]
      = Done (n, st) /\
    main 16 sample_system 2 ["duplicates"; "-q"; "sub/e"] = Done e /\
    n = 0 /\ exit_out e = EmptyString /\ status e = 1.
Proof.
  assert (parse_flags "duplicates" ["-q"; "sub/e"] 1 (mkOptions false false)
          = inr (2, mkOptions false true, ["sub/e"])) as H by reflexivity.
  split; [exact H |].
  destruct (main_scan 16 sample_system 2 2 (mkOptions false true) ["sub/e"])
    as [[n st]| |] eqn:E; try (vm_compute in E; discriminate E).
  destruct (main_modes 16 sample_system 2 _ _ _ _ _ n st H E)
    as (e & Hm & _ & Hn & _ & Hq & Hs & _).
  exists n, st, e. split; [reflexivity |]. split; [exact Hm |].
  assert (n = 0) as Hn0 by (rewrite (Hn "sub/e" eq_refl eq_refl); reflexivity).
  split; [exact Hn0 |]. split; [exact (Hq eq_refl eq_refl) |].
  apply Hs. split; [reflexivity | exact Hn0].
Defined.

End MainLaws.
